(** * A shallow embedding of the md-ui particle viewer

    The chain-grouping code ([calculateChainInfo] in
    src/types/chainMetadata.ts and the [chainMetadataMap] memo of
    MolecularView), the compute dispatch ([runComputePass] in
    src/gpu/computePipeline.ts), the update kernel ([main] in
    src/gpu/shaders/atomUpdate.wgsl), the per-frame readback loop of
    GPUAtomRenderer, the PDB loader ([parsePDB]) and the playground state
    (trajectory, frame index, playback flag, selected chain).

    Floating-point coordinates and colours are carried as [Q]; no property
    below depends on them. *)

From Stdlib Require Import ZArith NArith QArith List String Ascii Bool Lia Permutation.
From Stdlib Require Import Qround Qminmax Sorted.
Import ListNotations.
Open Scope string_scope.
Open Scope Z_scope.

(** ** Plain JavaScript objects used as maps

    [{}] literals keep their own properties in creation order, and a read
    that misses the own properties falls through to [Object.prototype]. *)
Module JSObject.

(** The property names an empty object literal inherits. *)
Definition object_prototype_members : list string :=
  [ "constructor"; "__defineGetter__"; "__defineSetter__";
    "hasOwnProperty"; "__lookupGetter__"; "__lookupSetter__";
    "isPrototypeOf"; "propertyIsEnumerable"; "toString"; "valueOf";
    "__proto__"; "toLocaleString" ].

Definition is_prototype_member (k : string) : bool :=
  existsb (String.eqb k) object_prototype_members.

(** Own properties, in creation order. *)
Definition t (V : Type) := list (string * V).

(** The result of [o[k]]. *)
Inductive get_result (V : Type) :=
| Own (v : V)
| Inherited
| Absent.
Arguments Own {V} v.
Arguments Inherited {V}.
Arguments Absent {V}.

Fixpoint own {V} (k : string) (o : t V) : option V :=
  match o with
  | [] => None
  | (k', v) :: o' => if String.eqb k k' then Some v else own k o'
  end.

Definition get {V} (k : string) (o : t V) : get_result V :=
  match own k o with
  | Some v => Own v
  | None => if is_prototype_member k then Inherited else Absent
  end.

(** [o[k] = v] on a key that is not [__proto__]: an existing own property
    keeps its place, a new one goes last. *)
Fixpoint set {V} (k : string) (v : V) (o : t V) : t V :=
  match o with
  | [] => [(k, v)]
  | (k', v') :: o' =>
      if String.eqb k k' then (k, v) :: o' else (k', v') :: set k v o'
  end.

(** Array-index keys: canonical decimal strings of integers below
    2^32 - 1. *)
Definition digit_val (c : ascii) : option N :=
  let n := nat_of_ascii c in
  if (48 <=? n)%nat && (n <=? 57)%nat then Some (N.of_nat (n - 48)) else None.

Fixpoint digits_val (s : string) (acc : N) : option N :=
  match s with
  | EmptyString => Some acc
  | String c s' =>
      match digit_val c with
      | Some d => digits_val s' (acc * 10 + d)%N
      | None => None
      end
  end.

Definition array_index (s : string) : option N :=
  match s with
  | EmptyString => None
  | String c rest =>
      if Ascii.eqb c "0"%char && negb (String.eqb rest "") then None
      else match digits_val s 0%N with
           | Some n => if (n <? 4294967295)%N then Some n else None
           | None => None
           end
  end.

Definition is_array_index (s : string) : bool :=
  match array_index s with Some _ => true | None => false end.

Fixpoint insert_index {V} (p : string * V) (l : t V) : t V :=
  match l with
  | [] => [p]
  | q :: l' =>
      match array_index (fst p), array_index (fst q) with
      | Some i, Some j => if (i <? j)%N then p :: l else q :: insert_index p l'
      | _, _ => q :: insert_index p l'
      end
  end.

(** [Object.entries o]: array-index keys in ascending numeric order, then
    the other keys in creation order. *)
Definition entries {V} (o : t V) : t V :=
  (fold_right insert_index [] (filter (fun p => is_array_index (fst p)) o)
  ++ filter (fun p => negb (is_array_index (fst p))) o)%list.

End JSObject.

Import JSObject.

(** ** Data model (src/types/simulation.ts) *)

Record RGBColor := { r : Q; g : Q; b : Q }.

Record Atom := {
  x : Q; y : Q; z : Q;
  element : string;
  name : string;
  residue : string;
  chain : string;
  residue_index : option Z;   (* residue_index?: number *)
  color : RGBColor
}.

(** Numbers that start at [Infinity] / [-Infinity] and go through
    [Math.min] / [Math.max]. *)
Inductive ext := NegInf | Fin (n : Z) | PosInf.

Definition Math_min (a c : ext) : ext :=
  match a, c with
  | NegInf, _ | _, NegInf => NegInf
  | PosInf, v | v, PosInf => v
  | Fin m, Fin n => Fin (Z.min m n)
  end.

Definition Math_max (a c : ext) : ext :=
  match a, c with
  | PosInf, _ | _, PosInf => PosInf
  | NegInf, v | v, NegInf => v
  | Fin m, Fin n => Fin (Z.max m n)
  end.

Definition ext_eqb (a c : ext) : bool :=
  match a, c with
  | NegInf, NegInf | PosInf, PosInf => true
  | Fin m, Fin n => Z.eqb m n
  | _, _ => false
  end.

(** ** src/types/chainMetadata.ts *)

Record ChainInfo := {
  chainId : string;
  atomCount : Z;
  residueCount : Z;
  residueRange_start : ext;
  residueRange_end : ext;
  (** [None] when a residue name is an [Object.prototype] member: the
      source then counts in non-numbers (or, for [__proto__], not at all),
      which this model does not follow. *)
  commonResidues : option (list string)
}.

(** [Set.add] on numbers. *)
Definition set_add (i : Z) (s : list Z) : list Z :=
  if existsb (Z.eqb i) s then s else (s ++ [i])%list.

(** [residueFrequency[resName] = (residueFrequency[resName] || 0) + 1] *)
Definition count_residue (acc : option (t Z)) (a : Atom) : option (t Z) :=
  match acc with
  | None => None
  | Some o =>
      let resName := residue a in
      match get resName o with
      | Own n => Some (set resName (n + 1) o)
      | Absent => Some (set resName 1 o)
      | Inherited => None
      end
  end.

(** [Array.prototype.sort] with comparator [(a, b) => b - a] on the
    counts; the sort is stable. *)
Fixpoint insert_by_count (p : string * Z) (l : t Z) : t Z :=
  match l with
  | [] => [p]
  | q :: l' => if snd q <? snd p then p :: l else q :: insert_by_count p l'
  end.

Definition sort_by_count (l : t Z) : t Z :=
  fold_left (fun acc p => insert_by_count p acc) l [].

Definition calculateChainInfo (atoms : list Atom) (chainId : string) : ChainInfo :=
  let atomCount := Z.of_nat (List.length atoms) in
  let uniqueResidues :=
    fold_left (fun s a => match residue_index a with
                          | Some i => set_add i s
                          | None => s
                          end) atoms [] in
  let residueCount := Z.of_nat (List.length uniqueResidues) in
  let minResidue :=
    fold_left (fun m a => match residue_index a with
                          | Some i => Math_min m (Fin i)
                          | None => m
                          end) atoms PosInf in
  let maxResidue :=
    fold_left (fun m a => match residue_index a with
                          | Some i => Math_max m (Fin i)
                          | None => m
                          end) atoms NegInf in
  let residueFrequency := fold_left count_residue atoms (Some []) in
  let commonResidues :=
    option_map (fun o => map fst (firstn 5 (sort_by_count (entries o))))
               residueFrequency in
  {| chainId := chainId;
     atomCount := atomCount;
     residueCount := residueCount;
     residueRange_start := if ext_eqb minResidue PosInf then Fin 0 else minResidue;
     residueRange_end := if ext_eqb maxResidue NegInf then Fin 0 else maxResidue;
     commonResidues := commonResidues |}.

(** ** The [chainMetadataMap] memo of MolecularView (src/unnamed/part_007)

    [None] is the [TypeError] thrown when [chainGroups[atom.chain]] hits an
    inherited [Object.prototype] member: the value is truthy, so no array is
    created, and it has no [push]. *)
Definition group_atom (acc : option (t (list Atom))) (a : Atom)
  : option (t (list Atom)) :=
  match acc with
  | None => None
  | Some chainGroups =>
      match get (chain a) chainGroups with
      | Own l => Some (set (chain a) (l ++ [a])%list chainGroups)
      | Absent => Some (set (chain a) [a] chainGroups)
      | Inherited => None
      end
  end.

Definition chainGroups (atoms : list Atom) : option (t (list Atom)) :=
  fold_left group_atom atoms (Some []).

(** [atoms] is [trajectory?.frames?.[currentFrame]]; a missing frame gives
    the empty object. *)
Definition chainMetadataMap (atoms : option (list Atom)) : option (t ChainInfo) :=
  match atoms with
  | None => Some []
  | Some atoms =>
      match chainGroups atoms with
      | None => None
      | Some groups =>
          Some (fold_left (fun metadataMap '(chainId, chainAtoms) =>
                             set chainId (calculateChainInfo chainAtoms chainId)
                                 metadataMap)
                          (entries groups) [])
      end
  end.

(** ** [runComputePass] (src/gpu/computePipeline.ts) *)
Module ComputePass.

(** The commands recorded and submitted, in order. *)
Inductive command :=
| CreateCommandEncoder
| BeginComputePass
| SetPipeline
| SetBindGroup (index : Z)
| DispatchWorkgroups (count : Z)
| EndPass
| Finish
| Submit.

Definition workgroupSize : Z := 64.

(** [Math.ceil(a / b)]; for the integer counts passed here [a / 64] is
    exact in binary floating point, so this is the integer ceiling. *)
Definition Math_ceil_div (a c : Z) : Z := - ((- a) / c).

Definition numWorkgroups (atomCount : Z) : Z :=
  Math_ceil_div atomCount workgroupSize.

Definition runComputePass (atomCount : Z) : list command :=
  [ CreateCommandEncoder;
    BeginComputePass;
    SetPipeline;
    SetBindGroup 0;
    DispatchWorkgroups (numWorkgroups atomCount);
    EndPass;
    Finish;
    Submit ].

Definition dispatches (cmds : list command) : list Z :=
  flat_map (fun c => match c with DispatchWorkgroups n => [n] | _ => [] end)
           cmds.

End ComputePass.

(** ** The update kernel (src/gpu/shaders/atomUpdate.wgsl) *)
Module AtomUpdate.

Record vec4 := mk_vec4 { v_x : Q; v_y : Q; v_z : Q; v_w : Q }.

Definition vec4_zero : vec4 := mk_vec4 0 0 0 0.

(** Accesses to the two storage buffers. *)
Inductive access :=
| ReadIn (i : N)     (* atomsIn[i] *)
| WriteOut (i : N).  (* atomsOut[i] = ... *)

(** A store into [atomsOut]; past the end nothing is written. *)
Fixpoint store (l : list vec4) (i : nat) (v : vec4) : list vec4 :=
  match l, i with
  | [], _ => []
  | _ :: l', O => v :: l'
  | w :: l', S i' => w :: store l' i' v
  end.

(** One invocation with [global_invocation_id.x = id_x]: the accesses it
    makes, in order, and the resulting [atomsOut]. *)
Definition main (atomsIn atomsOut : list vec4) (id_x : N)
  : list access * list vec4 :=
  let atomIndex := id_x in
  if (N.of_nat (List.length atomsIn) <=? atomIndex)%N then ([], atomsOut)
  else
    let currentPosition := nth (N.to_nat atomIndex) atomsIn vec4_zero in
    ([ReadIn atomIndex; WriteOut atomIndex],
     store atomsOut (N.to_nat atomIndex) currentPosition).

End AtomUpdate.

(** ** The per-frame loop of GPUAtomRenderer (src/unnamed/part_008)

    The component's refs and the staging buffers whose [mapAsync] has not
    resolved yet. *)
Module Renderer.

Record state := {
  gpuContext : bool;       (* gpuContext !== null *)
  outputBufferRef : bool;  (* outputBufferRef.current !== null *)
  pipelineRef : bool;      (* pipelineRef.current !== null *)
  bindGroupRef : bool;     (* bindGroupRef.current !== null *)
  meshRef : bool;          (* meshRef.current !== null *)
  inflight : nat;          (* readbacks awaiting mapAsync *)
  dispatched : nat         (* runComputePass calls *)
}.

Definition init : state :=
  {| gpuContext := false; outputBufferRef := false; pipelineRef := false;
     bindGroupRef := false; meshRef := false; inflight := 0; dispatched := 0 |}.

Inductive event :=
| ContextReady                     (* setGpuContext(context) *)
| BuffersEffect (atomCount : nat)  (* STEP 2 effect *)
| PipelineBuilt                    (* setupPipeline resolved *)
| Frame                            (* useFrame callback *)
| MapResolved.                     (* a stagingBuffer.mapAsync resolved *)

(** [updateMesh()]: it returns before creating the staging buffer unless
    both [meshRef.current] and [outputBufferRef.current] are set;
    otherwise it submits the copy and awaits [mapAsync]. *)
Definition updateMesh (s : state) : state :=
  if meshRef s && outputBufferRef s
  then {| gpuContext := gpuContext s; outputBufferRef := outputBufferRef s;
          pipelineRef := pipelineRef s; bindGroupRef := bindGroupRef s;
          meshRef := meshRef s; inflight := S (inflight s);
          dispatched := dispatched s |}
  else s.

Definition step (s : state) (e : event) : state :=
  match e with
  | ContextReady =>
      {| gpuContext := true; outputBufferRef := outputBufferRef s;
         pipelineRef := pipelineRef s; bindGroupRef := bindGroupRef s;
         meshRef := meshRef s; inflight := inflight s;
         dispatched := dispatched s |}
  | BuffersEffect n =>
      if gpuContext s && negb (Nat.eqb n 0)
      then {| gpuContext := gpuContext s; outputBufferRef := true;
              pipelineRef := pipelineRef s; bindGroupRef := bindGroupRef s;
              meshRef := meshRef s; inflight := inflight s;
              dispatched := dispatched s |}
      else s
  | PipelineBuilt =>
      if gpuContext s && outputBufferRef s
      then {| gpuContext := gpuContext s; outputBufferRef := outputBufferRef s;
              pipelineRef := true; bindGroupRef := true;
              meshRef := meshRef s; inflight := inflight s;
              dispatched := dispatched s |}
      else s
  | Frame =>
      if gpuContext s && pipelineRef s && bindGroupRef s
      then updateMesh
             {| gpuContext := gpuContext s; outputBufferRef := outputBufferRef s;
                pipelineRef := pipelineRef s; bindGroupRef := bindGroupRef s;
                meshRef := meshRef s; inflight := inflight s;
                dispatched := S (dispatched s) |}
      else s
  | MapResolved =>
      {| gpuContext := gpuContext s; outputBufferRef := outputBufferRef s;
         pipelineRef := pipelineRef s; bindGroupRef := bindGroupRef s;
         meshRef := meshRef s; inflight := Nat.pred (inflight s);
         dispatched := dispatched s |}
  end.

Definition run (s : state) (evs : list event) : state := fold_left step evs s.

End Renderer.

(** ** Trajectory documents (src/types/simulation.ts); the [bounds] are
    left out, no property below reads them. *)
Record SimulationMetadata := {
  source : string;
  title : option string;
  num_frames : Z;
  num_atoms : Z
}.

Record TrajectoryData := {
  metadata : SimulationMetadata;
  frames : list (list Atom)
}.

(** ** The PDB loader (src/unnamed/part_004) *)
Module PDB.

Definition newline : ascii := ascii_of_nat 10.

(** [content.split('\n')] *)
Fixpoint split_lines_acc (s : string) (cur : string) : list string :=
  match s with
  | EmptyString => [cur]
  | String c s' =>
      if Ascii.eqb c newline then cur :: split_lines_acc s' ""
      else split_lines_acc s' (cur ++ String c "")
  end.

Definition split_lines (s : string) : list string := split_lines_acc s "".

(** [s.substring(i, j)] for [i <= j]. *)
Definition js_substring (s : string) (i j : nat) : string :=
  substring i (j - i) s.

Definition is_space (c : ascii) : bool :=
  let n := nat_of_ascii c in
  (Nat.eqb n 32 || ((9 <=? n) && (n <=? 13)) || Nat.eqb n 160)%nat.

Fixpoint trim_start (s : string) : string :=
  match s with
  | EmptyString => EmptyString
  | String c s' => if is_space c then trim_start s' else s
  end.

Fixpoint rev_string (s : string) (acc : string) : string :=
  match s with
  | EmptyString => acc
  | String c s' => rev_string s' (String c acc)
  end.

(** [s.trim()] *)
Definition trim (s : string) : string :=
  rev_string (trim_start (rev_string (trim_start s) "")) "".

Definition is_digit (c : ascii) : bool :=
  let n := nat_of_ascii c in ((48 <=? n) && (n <=? 57))%nat.

(** [s.replace(/\d/, '')]: the first digit goes. *)
Fixpoint replace_first_digit (s : string) : string :=
  match s with
  | EmptyString => EmptyString
  | String c s' => if is_digit c then s' else String c (replace_first_digit s')
  end.

Definition upcase (c : ascii) : ascii :=
  let n := nat_of_ascii c in
  if ((97 <=? n) && (n <=? 122))%nat then ascii_of_nat (n - 32) else c.

(** [s.toUpperCase()] *)
Fixpoint toUpperCase (s : string) : string :=
  match s with
  | EmptyString => EmptyString
  | String c s' => String (upcase c) (toUpperCase s')
  end.

Definition rgb (r0 g0 b0 : Q) : RGBColor := {| r := r0; g := g0; b := b0 |}.

Definition CPK_COLORS : list (string * RGBColor) :=
  [ ("C", rgb (1#2) (1#2) (1#2));
    ("N", rgb 0 0 1);
    ("O", rgb 1 0 0);
    ("S", rgb 1 1 0);
    ("P", rgb 1 (1#2) 0);
    ("H", rgb 1 1 1) ].

Definition cpk_lookup (k : string) : option RGBColor :=
  match find (fun p => String.eqb (fst p) k) CPK_COLORS with
  | Some (_, c) => Some c
  | None => None
  end.

Section Parse.
(** [parseFloat] on a column slice. *)
Variable parseFloat : string -> Q.

Definition parse_atom (line : string) : Atom :=
  let e76 := trim (js_substring line 76 78) in
  let element :=
    if String.eqb e76 "" then replace_first_digit (trim (js_substring line 12 14))
    else e76 in
  let x0 := parseFloat (js_substring line 30 38) in
  let y0 := parseFloat (js_substring line 38 46) in
  let z0 := parseFloat (js_substring line 46 54) in
  let atomName := trim (js_substring line 12 16) in
  let residue0 := trim (js_substring line 17 20) in
  let chain0 := trim (js_substring line 21 22) in
  let color0 :=
    match cpk_lookup (toUpperCase element) with
    | Some c => c
    | None => rgb (1#2) (1#2) (1#2)
    end in
  {| x := x0; y := y0; z := z0; element := element; name := atomName;
     residue := residue0; chain := chain0; residue_index := None;
     color := color0 |}.

Definition is_atom_line (line : string) : bool :=
  prefix "ATOM" line || prefix "HETATM" line.

Definition parsePDB (content fileName : string) : TrajectoryData :=
  let atoms := map parse_atom (filter is_atom_line (split_lines content)) in
  {| metadata := {| source := fileName; title := None; num_frames := 1;
                    num_atoms := Z.of_nat (List.length atoms) |};
     frames := [atoms] |}.
End Parse.

End PDB.

(** ** The playground (src/src/pages/Meta.tsx), its FileUploader
    (src/unnamed/part_007) and the selection state of MolecularView

    MolecularView is rendered at a fixed place of the playground without a
    [key], so a new trajectory re-renders it with its [selectedChain] state
    kept; the two components' states are one record here. *)
Module Playground.

(** A JavaScript number as the frame index takes it. *)
Inductive jsnum := Num (n : Z) | NaN.

(** [a % n] on integers. *)
Definition js_rem (a : jsnum) (n : Z) : jsnum :=
  match a with
  | Num m => if Z.eqb n 0 then NaN else Num (Z.rem m n)
  | NaN => NaN
  end.

Definition js_add1 (a : jsnum) : jsnum :=
  match a with Num m => Num (m + 1) | NaN => NaN end.

Record state := {
  trajectory : TrajectoryData;
  currentFrame : jsnum;
  isPlaying : bool;
  selectedChain : option string
}.

(** [trajectory.frames?.length || 0] *)
Definition totalFrames (s : state) : Z :=
  Z.of_nat (List.length (frames (trajectory s))).

Inductive event :=
| DataLoaded (d : TrajectoryData)  (* onDataLoaded = setTrajectory, new object *)
| Tick                             (* the setInterval callback *)
| SetPlaying (p : bool)            (* Controls: setIsPlaying *)
| FrameChange (n : Z)              (* Controls: onFrameChange *)
| Select (c : string)              (* handleChainSelect *)
| Deselect.                        (* handleChainDeselect *)

Definition with_frame (s : state) (f : jsnum) : state :=
  {| trajectory := trajectory s; currentFrame := f; isPlaying := isPlaying s;
     selectedChain := selectedChain s |}.

Definition with_selection (s : state) (c : option string) : state :=
  {| trajectory := trajectory s; currentFrame := currentFrame s;
     isPlaying := isPlaying s; selectedChain := c |}.

(** [setCurrentFrame((prev) => (prev + 1) % totalFrames)] *)
Definition advance (s : state) : jsnum :=
  js_rem (js_add1 (currentFrame s)) (totalFrames s).

Definition step (s : state) (e : event) : state :=
  match e with
  | DataLoaded d =>
      (* setTrajectory(d), then the [trajectory] effect:
         setCurrentFrame(0); setIsPlaying(true) *)
      {| trajectory := d; currentFrame := Num 0; isPlaying := true;
         selectedChain := selectedChain s |}
  | Tick =>
      (* the interval only exists while [isPlaying] *)
      if isPlaying s then with_frame s (advance s) else s
  | SetPlaying p =>
      {| trajectory := trajectory s; currentFrame := currentFrame s;
         isPlaying := p; selectedChain := selectedChain s |}
  | FrameChange n => with_frame s (Num n)
  | Select c => with_selection s (Some c)
  | Deselect => with_selection s None
  end.

Definition run (s : state) (evs : list event) : state := fold_left step evs s.

(** The outcome of one [FileReader] read. *)
Inductive read_outcome :=
| Loaded (text : string)
| Aborted
| Failed.

Section Upload.
Variable parseFloat : string -> Q.

(** [reader.onload] / [onabort] / [onerror] for one dropped file:
    [parsePDB] returns normally on every input, and its result goes to
    [onDataLoaded]. *)
Definition on_read (fileName : string) (s : state) (o : read_outcome) : state :=
  match o with
  | Loaded text => step s (DataLoaded (PDB.parsePDB parseFloat text fileName))
  | Aborted | Failed => s
  end.

(** What reaches the page: a file read of FileUploader, the only caller
    of [onDataLoaded] (Meta.tsx line 608), or a playback or selection
    event. *)
Inductive ui_event :=
| Upload (fileName : string) (o : read_outcome)
| UTick
| USetPlaying (p : bool)
| UFrameChange (n : Z)
| USelect (c : string)
| UDeselect.

Definition ui_step (s : state) (e : ui_event) : state :=
  match e with
  | Upload fileName o => on_read fileName s o
  | UTick => step s Tick
  | USetPlaying p => step s (SetPlaying p)
  | UFrameChange n => step s (FrameChange n)
  | USelect c => step s (Select c)
  | UDeselect => step s Deselect
  end.

Definition ui_run (s : state) (evs : list ui_event) : state := fold_left ui_step evs s.
End Upload.

End Playground.

(** ** [hashString] (src/unnamed/part_005) *)
Module Hash.

(** [ToInt32]: the integer taken modulo 2^32 into [-2^31, 2^31). *)
Definition ToInt32 (v : Z) : Z := (v + 2 ^ 31) mod 2 ^ 32 - 2 ^ 31.

(** [str.charCodeAt(i)]; strings are byte strings here, each code unit
    below 256. *)
Definition charCodeAt (c : ascii) : Z := Z.of_nat (nat_of_ascii c).

(** One turn of the loop: [hash = ((hash << 5) - hash) + char], then
    [hash = hash & hash].  Before the [&] the value is below 2^34 in size,
    so the double arithmetic is exact. *)
Definition hash_step (hash : Z) (c : ascii) : Z :=
  let char := charCodeAt c in
  let hash1 := ToInt32 (Z.shiftl (ToInt32 hash) 5) - hash + char in
  Z.land (ToInt32 hash1) (ToInt32 hash1).

Fixpoint hash_loop (s : string) (hash : Z) : Z :=
  match s with
  | EmptyString => hash
  | String c s' => hash_loop s' (hash_step hash c)
  end.

Definition hashString (str : string) : Z := Z.abs (hash_loop str 0).

End Hash.

(** ** [rgbToHex] (src/unnamed/part_006)

    Colour channels are carried as [Q], so [color.r * 255] is exact. *)
Module Colors.

(** [Math.round]: the nearest integer, halves rounded up. *)
Definition Math_round (q : Q) : Z := Qfloor (q + (1 # 2)).

Definition hex_digit (d : Z) : ascii :=
  if d <? 10 then ascii_of_nat (48 + Z.to_nat d) else ascii_of_nat (87 + Z.to_nat d).

Fixpoint radix16 (fuel : nat) (n : Z) (acc : string) : string :=
  match fuel with
  | O => acc
  | S fuel' =>
      let acc' := String (hex_digit (n mod 16)) acc in
      if n <? 16 then acc' else radix16 fuel' (n / 16) acc'
  end.

(** [n.toString(16)] for an integer [n >= 0]: lower-case digits, no
    leading zero. *)
Definition toString16 (n : Z) : string := radix16 (S (Z.to_nat n)) n "".

Definition toHex (n : Z) : string :=
  let hex := toString16 (Z.max 0 (Z.min 255 n)) in
  if Nat.eqb (String.length hex) 1 then String "0"%char hex else hex.

Section Binary64.
(** The binary64 result of a product: [fl q] is the exact product [q]
    rounded to a double. *)
Variable fl : Q -> Q.

(** [rgbToHex(color)]; [None] is a missing colour object. [color.r * 255]
    is a binary64 product, [Math.round] is exact. *)
Definition rgbToHex (color : option RGBColor) : string :=
  match color with
  | None => "#ffffff"
  | Some c =>
      let r0 := Math_round (fl (r c * 255))%Q in
      let g0 := Math_round (fl (g c * 255))%Q in
      let b0 := Math_round (fl (b c * 255))%Q in
      "#" ++ toHex r0 ++ toHex g0 ++ toHex b0
  end.
End Binary64.

End Colors.

(** ** The bounds [parsePDB] computes (src/unnamed/part_004)

    Here the numbers are JavaScript numbers: [parseFloat] of a column
    without a number is NaN, and NaN goes through [Math.min], [Math.max]
    and [+=]. *)
Module PDBBounds.

(** A JavaScript number: NaN, an infinity, or a finite value by its
    rational value (the sign of a zero is not kept). *)
Inductive jsnum := JNaN | JNegInf | JFin (q : Q) | JPosInf.

(** [Math.min]: NaN when an argument is NaN, else the smaller. *)
Definition Math_min (a c : jsnum) : jsnum :=
  match a, c with
  | JNaN, _ | _, JNaN => JNaN
  | JNegInf, _ | _, JNegInf => JNegInf
  | JPosInf, v | v, JPosInf => v
  | JFin m, JFin n => JFin (Qmin m n)
  end.

(** [Math.max]: NaN when an argument is NaN, else the larger. *)
Definition Math_max (a c : jsnum) : jsnum :=
  match a, c with
  | JNaN, _ | _, JNaN => JNaN
  | JPosInf, _ | _, JPosInf => JPosInf
  | JNegInf, v | v, JNegInf => v
  | JFin m, JFin n => JFin (Qmax m n)
  end.

Record Coordinates := { cx : jsnum; cy : jsnum; cz : jsnum }.
Record SimulationBounds := {
  bmin : Coordinates;
  bmax : Coordinates;
  center : Coordinates
}.

(** The loop's accumulators. *)
Record stats := {
  minX : jsnum; minY : jsnum; minZ : jsnum;
  maxX : jsnum; maxY : jsnum; maxZ : jsnum;
  sumX : jsnum; sumY : jsnum; sumZ : jsnum
}.

Definition stats_init : stats :=
  {| minX := JPosInf; minY := JPosInf; minZ := JPosInf;
     maxX := JNegInf; maxY := JNegInf; maxZ := JNegInf;
     sumX := JFin 0; sumY := JFin 0; sumZ := JFin 0 |}.

Section Parse.
(** Binary64 addition and division, which round. *)
Variable fadd : jsnum -> jsnum -> jsnum.
Variable fdiv : jsnum -> jsnum -> jsnum.
Variable parseFloat : string -> jsnum.

Definition stats_step (s : stats) (p : Coordinates) : stats :=
  {| minX := Math_min (minX s) (cx p);
     minY := Math_min (minY s) (cy p);
     minZ := Math_min (minZ s) (cz p);
     maxX := Math_max (maxX s) (cx p);
     maxY := Math_max (maxY s) (cy p);
     maxZ := Math_max (maxZ s) (cz p);
     sumX := fadd (sumX s) (cx p); sumY := fadd (sumY s) (cy p);
     sumZ := fadd (sumZ s) (cz p) |}.

(** [metadata.bounds] for the coordinates of the atom lines, in file
    order. *)
Definition bounds_of (pts : list Coordinates) : SimulationBounds :=
  let s := fold_left stats_step pts stats_init in
  let numAtoms := Z.of_nat (List.length pts) in
  {| bmin := {| cx := minX s; cy := minY s; cz := minZ s |};
     bmax := {| cx := maxX s; cy := maxY s; cz := maxZ s |};
     center :=
       if 0 <? numAtoms
       then {| cx := fdiv (sumX s) (JFin (inject_Z numAtoms));
               cy := fdiv (sumY s) (JFin (inject_Z numAtoms));
               cz := fdiv (sumZ s) (JFin (inject_Z numAtoms)) |}
       else {| cx := JFin 0; cy := JFin 0; cz := JFin 0 |} |}.

(** [x], [y], [z] of an atom line. *)
Definition line_coords (line : string) : Coordinates :=
  {| cx := parseFloat (PDB.js_substring line 30 38);
     cy := parseFloat (PDB.js_substring line 38 46);
     cz := parseFloat (PDB.js_substring line 46 54) |}.

Definition parsePDB_bounds (content : string) : SimulationBounds :=
  bounds_of (map line_coords (filter PDB.is_atom_line (PDB.split_lines content))).
End Parse.

End PDBBounds.

(** ** One dispatch of the update kernel over the buffers of
    GPUAtomRenderer (src/unnamed/part_008) *)
Module Dispatch.
Import AtomUpdate.

(** [global_invocation_id.x] of the invocations of
    [dispatchWorkgroups(numWorkgroups)] with [@workgroup_size(64)]. *)
Definition dispatch_ids (atomCount : Z) : list N :=
  map N.of_nat
      (seq 0 (Z.to_nat (ComputePass.workgroupSize * ComputePass.numWorkgroups atomCount))).

(** The invocations one after the other; each reads [atomsIn] and writes
    its own element of [atomsOut]. *)
Fixpoint run_invocations (atomsIn atomsOut : list vec4) (ids : list N) : list vec4 :=
  match ids with
  | [] => atomsOut
  | i :: ids' => run_invocations atomsIn (snd (main atomsIn atomsOut i)) ids'
  end.

Section Pack.
(** [Math.fround]: a store into a [Float32Array]. *)
Variable fround : Q -> Q.

(** [atomData]: [x, y, z, 1.0] per atom ([1.0] is exact in binary32). *)
Definition pack (atoms : list Atom) : list vec4 :=
  map (fun a => mk_vec4 (fround (x a)) (fround (y a)) (fround (z a)) 1) atoms.
End Pack.

End Dispatch.

(** ** What MolecularView shows (src/unnamed/part_007) and how its
    BackboneView draws the chains (src/unnamed/part_010) *)
Module View.
Import Playground.

(** [trajectory?.frames?.[currentFrame]] *)
Definition current_atoms (s : state) : option (list Atom) :=
  match currentFrame s with
  | Num n => if n <? 0 then None else nth_error (frames (trajectory s)) (Z.to_nat n)
  | NaN => None
  end.

Definition is_CA (a : Atom) : bool := String.eqb (name a) "CA".

(** The [chains] memo of BackboneView: alpha carbons grouped by chain id
    with the same [if (!groups[atom.chain]) ...] and [push] as the
    [chainGroups] of MolecularView. *)
Definition backbone_chains (atoms : list Atom) : option (t (list Atom)) :=
  fold_left (fun groups a => if is_CA a then group_atom groups a else groups)
            atoms (Some []).

Record chain_style := {
  isSelected : bool;
  isDimmed : bool;
  lineWidth : Z;
  line_opacity : Q;
  sphere_opacity : Q;
  emissiveIntensity : Q
}.

(** The props BackboneView gives the line and spheres of [chainId]. *)
Definition style_of (selectedChain : option string) (chainId : string) : chain_style :=
  let isSelected := match selectedChain with
                    | Some c => String.eqb c chainId
                    | None => false
                    end in
  let isDimmed := match selectedChain with
                  | Some c => negb (String.eqb c chainId)
                  | None => false
                  end in
  {| isSelected := isSelected;
     isDimmed := isDimmed;
     lineWidth := if isSelected then 5 else 1;
     line_opacity := if isDimmed then 5 # 100 else 1;
     sphere_opacity := if isDimmed then 1 # 10 else 1;
     emissiveIntensity := if isSelected then 1 # 10 else 0 |}.

(** The chain groups BackboneView draws, in [Object.entries] order, each
    with its style. *)
Definition backbone_view (atoms : list Atom) (selectedChain : option string)
  : option (list (string * chain_style)) :=
  option_map (fun groups => map (fun p => (fst p, style_of selectedChain (fst p)))
                                (entries groups))
             (backbone_chains atoms).

Inductive panel := NoPanel | Panel (info : ChainInfo) | PanelThrows.

(** [selectedChain ? chainMetadataMap[selectedChain] : null] as
    ChainInfoPanel renders it: nothing for a falsy value; an inherited
    member is truthy and has no [atomCount], so
    [chainInfo.atomCount.toLocaleString()] throws. *)
Definition onSelectInfo (m : t ChainInfo) (selectedChain : option string) : panel :=
  match selectedChain with
  | None => NoPanel
  | Some c =>
      if String.eqb c "" then NoPanel
      else match get c m with
           | Own info => Panel info
           | Absent => NoPanel
           | Inherited => PanelThrows
           end
  end.

(** [Object.keys(chainMetadataMap).length] *)
Definition totalChains (m : t ChainInfo) : Z := Z.of_nat (List.length (entries m)).

End View.

(** ** The FPS overlay (src/unnamed/part_008): [FPSDisplay], whose
    [updateFPS] runs once per animation frame; [FPSCounter] updates the
    same way *)
Module FPS.

Record state := {
  fps : Z;
  avgFps : Z;
  frameCount : Z;
  lastTime : Q;
  fpsHistory : list Z
}.

(** Mounted at [performance.now() = now]. *)
Definition init (now : Q) : state :=
  {| fps := 60; avgFps := 60; frameCount := 0; lastTime := now; fpsHistory := [] |}.

(** One [updateFPS] call at [performance.now() = currentTime]. *)
Definition updateFPS (s : state) (currentTime : Q) : state :=
  let frameCount1 := frameCount s + 1 in
  let delta := (currentTime - lastTime s)%Q in
  if Qle_bool 500 delta then
    let currentFps := Colors.Math_round (inject_Z frameCount1 / delta * 1000) in
    let pushed := (fpsHistory s ++ [currentFps])%list in
    let history := if (10 <? List.length pushed)%nat then tl pushed else pushed in
    let avg := Colors.Math_round (inject_Z (fold_left Z.add history 0)
                                  / inject_Z (Z.of_nat (List.length history))) in
    {| fps := currentFps; avgFps := avg; frameCount := 0; lastTime := currentTime;
       fpsHistory := history |}
  else {| fps := fps s; avgFps := avgFps s; frameCount := frameCount1;
          lastTime := lastTime s; fpsHistory := fpsHistory s |}.

Definition run (s : state) (times : list Q) : state := fold_left updateFPS times s.

End FPS.

(** ** Specification-side notions and sample data *)

(** The residue indices a group carries, in order, missing ones skipped. *)
Definition residue_indices (atoms : list Atom) : list Z :=
  flat_map (fun a => match residue_index a with Some i => [i] | None => [] end)
           atoms.

Definition frames_match_num_atoms (d : TrajectoryData) : bool :=
  forallb (fun f => Z.eqb (Z.of_nat (List.length f)) (num_atoms (metadata d)))
          (frames d).

Definition black : RGBColor := {| r := 0; g := 0; b := 0 |}.

Definition sample_atom (c res : string) (ri : option Z) : Atom :=
  {| x := 0; y := 0; z := 0; element := "C"; name := "CA"; residue := res;
     chain := c; residue_index := ri; color := black |}.

Definition sample_doc (nframes natoms : nat) (c : string) : TrajectoryData :=
  {| metadata := {| source := "sample"; title := Some "sample";
                    num_frames := Z.of_nat nframes;
                    num_atoms := Z.of_nat natoms |};
     frames := repeat (repeat (sample_atom c "ALA" None) natoms) nframes |}.

Definition playground_at (d : TrajectoryData) : Playground.state :=
  {| Playground.trajectory := d; Playground.currentFrame := Playground.Num 0;
     Playground.isPlaying := false; Playground.selectedChain := None |}.

(** The polynomial hash the loop's comment names: [hash * 31 + char] over
    the unbounded integers. *)
Fixpoint poly31 (s : string) (h : Z) : Z :=
  match s with
  | EmptyString => h
  | String c s' => poly31 s' (h * 31 + Hash.charCodeAt c)
  end.

(** Reading back a two-digit lower-case hexadecimal string. *)
Definition hex_val (c : ascii) : option Z :=
  let n := Z.of_nat (nat_of_ascii c) in
  if (48 <=? n) && (n <=? 57) then Some (n - 48)
  else if (97 <=? n) && (n <=? 102) then Some (n - 87)
  else None.

Definition decode_byte (s : string) : option Z :=
  match s with
  | String c1 (String c2 EmptyString) =>
      match hex_val c1, hex_val c2 with
      | Some h, Some l => Some (16 * h + l)
      | _, _ => None
      end
  | _ => None
  end.

Inductive axis := AxisX | AxisY | AxisZ.

Definition coord (ax : axis) (p : PDBBounds.Coordinates) : PDBBounds.jsnum :=
  match ax with
  | AxisX => PDBBounds.cx p
  | AxisY => PDBBounds.cy p
  | AxisZ => PDBBounds.cz p
  end.

(** ** Dispatch *)
Section DispatchProofs.
Import ComputePass.

Lemma Math_ceil_div_bounds (a : Z) :
  64 * Math_ceil_div a 64 - 64 < a <= 64 * Math_ceil_div a 64.
Proof.
  unfold Math_ceil_div.
  pose proof (Z.div_mod (- a) 64 ltac:(lia)).
  pose proof (Z.mod_pos_bound (- a) 64 ltac:(lia)).
  lia.
Qed.

(** C1: [runComputePass] issues exactly one dispatch, with
    [ceil(atomCount / 64)] workgroups: the least multiple of 64 not below
    the count, divided by 64; for 1, 63, 64, 65 and 10000 particles that is
    1, 1, 1, 2 and 157. *)
Theorem runComputePass_dispatches_ceil (n : Z) :
  dispatches (runComputePass n) = [numWorkgroups n] /\
  64 * numWorkgroups n - 64 < n <= 64 * numWorkgroups n /\
  map numWorkgroups [1; 63; 64; 65; 10000] = [1; 1; 1; 2; 157].
Proof.
  split; [reflexivity |].
  split; [apply Math_ceil_div_bounds | reflexivity].
Qed.

End DispatchProofs.

(** ** The kernel *)
Section KernelProofs.
Import AtomUpdate.

(** C9: an invocation whose index is at least [arrayLength(&atomsIn)]
    makes no buffer access and leaves [atomsOut] as it was. *)
Theorem main_out_of_range_noop (atomsIn atomsOut : list vec4) (id_x : N)
  (Hout : (N.of_nat (List.length atomsIn) <= id_x)%N) :
  main atomsIn atomsOut id_x = ([], atomsOut).
Proof.
  unfold main.
  apply N.leb_le in Hout. rewrite Hout. reflexivity.
Qed.

Lemma main_out_of_range_noop_witness :
  (N.of_nat (List.length (repeat vec4_zero 100)) <= 127)%N /\
  main (repeat vec4_zero 100) (repeat vec4_zero 100) 127 = ([], repeat vec4_zero 100).
Proof.
  split; [vm_compute; discriminate |].
  apply main_out_of_range_noop. vm_compute. discriminate.
Defined.

(** The in-range invocations read and write their own index only. *)
Lemma main_in_range (atomsIn atomsOut : list vec4) (id_x : N) :
  (id_x < N.of_nat (List.length atomsIn))%N ->
  fst (main atomsIn atomsOut id_x) = [ReadIn id_x; WriteOut id_x].
Proof.
  intros H. unfold main.
  destruct (N.leb_spec (N.of_nat (List.length atomsIn)) id_x); [lia | reflexivity].
Qed.

End KernelProofs.

(** ** The readback loop *)
Section RendererProofs.
Import Renderer.

Definition no_readback (s : state) : Prop := meshRef s = false /\ inflight s = 0%nat.

Lemma step_no_readback (s : state) (e : event) :
  no_readback s -> no_readback (step s e).
Proof.
  intros [Hm Hi]. unfold no_readback.
  destruct e; simpl;
    repeat match goal with
           | |- context [if ?c then _ else _] => destruct c eqn:?
           end;
    unfold updateMesh; simpl; rewrite ?Hm; simpl; auto; lia.
Qed.

Lemma run_no_readback (evs : list event) (s : state) :
  no_readback s -> no_readback (run s evs).
Proof.
  revert s. induction evs as [| e evs IH]; intros s H; simpl; auto.
  apply IH, step_no_readback, H.
Qed.

(** C2: along every sequence of effects, frames and mapping completions
    from mount, at most one readback is outstanding.  In fact none ever is:
    [updateMesh] returns before creating a staging buffer while
    [meshRef.current] is null, and nothing in the component assigns it; the
    frame callback has no in-flight flag of its own. *)
Theorem readbacks_at_most_one (evs : list event) :
  (inflight (run init evs) <= 1)%nat.
Proof.
  destruct (run_no_readback evs init) as [_ H]; [split; reflexivity |].
  rewrite H. lia.
Qed.

(** Each frame with a ready pipeline dispatches, whatever is in flight. *)
Lemma frame_always_dispatches (s : state) :
  gpuContext s && pipelineRef s && bindGroupRef s = true ->
  dispatched (step s Frame) = S (dispatched s).
Proof.
  intros H. simpl. rewrite H. unfold updateMesh. simpl.
  destruct (meshRef s && outputBufferRef s); reflexivity.
Qed.

End RendererProofs.

(** ** Loading and playback *)
Section PlaygroundProofs.
Import Playground.

Lemma parsePDB_frames_match (parseFloat : string -> Q) (text fileName : string) :
  frames_match_num_atoms (PDB.parsePDB parseFloat text fileName) = true.
Proof. cbn. rewrite Z.eqb_refl. reflexivity. Qed.

Lemma ui_step_cases (parseFloat : string -> Q) (s : state) (e : ui_event) :
  trajectory (ui_step parseFloat s e) = trajectory s \/
  frames_match_num_atoms (trajectory (ui_step parseFloat s e)) = true.
Proof.
  destruct e as [fileName [text | |] | | p | n | c |]; cbn [ui_step on_read].
  - right. apply parsePDB_frames_match.
  - left. reflexivity.
  - left. reflexivity.
  - left. cbn [step]. destruct (isPlaying s); reflexivity.
  - left. reflexivity.
  - left. reflexivity.
  - left. reflexivity.
  - left. reflexivity.
Qed.

(** C6: no load installs a trajectory whose frames differ in length from
    [metadata.num_atoms]. The code checks nothing itself: the only
    documents [onDataLoaded] receives come from [parsePDB], whose single
    frame has exactly [num_atoms] particles. A read that aborts or fails
    leaves the state as it was, and a successful one replaces the whole
    trajectory with the parsed document. So over any sequence of uploads
    and playback or selection events, the store holds either the
    trajectory it started with or a document whose frames match
    [num_atoms]. *)
Theorem load_never_installs_mismatched (parseFloat : string -> Q) :
  (forall fileName s o,
      on_read parseFloat fileName s o = s \/
      exists text, o = Loaded text /\
        trajectory (on_read parseFloat fileName s o) = PDB.parsePDB parseFloat text fileName /\
        frames_match_num_atoms (trajectory (on_read parseFloat fileName s o)) = true) /\
  (forall s evs,
      trajectory (ui_run parseFloat s evs) = trajectory s \/
      frames_match_num_atoms (trajectory (ui_run parseFloat s evs)) = true).
Proof.
  split.
  - intros fileName s [text | |]; [right | left | left]; try reflexivity.
    exists text. split; [reflexivity |]. split; [reflexivity |].
    apply parsePDB_frames_match.
  - intros s evs. unfold ui_run.
    assert (G : forall s0, trajectory s0 = trajectory s \/
                           frames_match_num_atoms (trajectory s0) = true ->
                forall l, trajectory (fold_left (ui_step parseFloat) l s0) = trajectory s \/
                          frames_match_num_atoms
                            (trajectory (fold_left (ui_step parseFloat) l s0)) = true).
    { intros s0 H0 l. revert s0 H0. induction l as [| e l IH]; intros s0 H0; [exact H0 |].
      cbn [fold_left]. apply IH.
      destruct (ui_step_cases parseFloat s0 e) as [E | E]; [rewrite E; exact H0 | right; exact E]. }
    apply G. left. reflexivity.
Qed.

(** C7 (as stated, refuted): a chain selected before a load is still
    selected after it. *)
Lemma selection_survives_load :
  selectedChain (run (playground_at (sample_doc 2 3 "A"))
                     [Select "A"; DataLoaded (sample_doc 1 2 "B")])
  = Some "A".
Proof. reflexivity. Qed.

(** C7 (amended): a load replaces the trajectory, sets the frame index to
    0 and starts playback, and leaves the selected chain as it was. *)
Theorem load_keeps_selection (s : state) (d : TrajectoryData) :
  let s' := step s (DataLoaded d) in
  selectedChain s' = selectedChain s /\ trajectory s' = d /\
  currentFrame s' = Num 0 /\ isPlaying s' = true.
Proof. repeat split. Qed.

Lemma tick_playing (s : state) (p : Z) :
  isPlaying s = true -> currentFrame s = Num p -> 0 <= p < totalFrames s ->
  step s Tick = with_frame s (Num ((p + 1) mod totalFrames s)).
Proof.
  intros Hp Hc Hb. simpl. rewrite Hp. unfold advance, js_rem, js_add1.
  rewrite Hc.
  destruct (Z.eqb_spec (totalFrames s) 0); [lia |].
  rewrite Z.rem_mod_nonneg by lia. reflexivity.
Qed.

(** C8: while playing, with a frame index [p] inside a non-empty
    trajectory, a tick sets the index to [(p + 1) mod] the frame count
    ([frames.length]), so the last frame is followed by frame 0, and [k]
    ticks give [(p + k) mod] the frame count: playback loops for ever. *)
Theorem tick_advances_mod (s : state) (p : Z)
  (Hplay : isPlaying s = true) (Hcur : currentFrame s = Num p)
  (Hbound : 0 <= p < totalFrames s) :
  currentFrame (step s Tick) = Num ((p + 1) mod totalFrames s) /\
  (p = totalFrames s - 1 -> currentFrame (step s Tick) = Num 0) /\
  (forall k, currentFrame (run s (repeat Tick k))
             = Num ((p + Z.of_nat k) mod totalFrames s)).
Proof.
  split; [rewrite (tick_playing s p Hplay Hcur Hbound); reflexivity |].
  split.
  - intros ->. rewrite (tick_playing s _ Hplay Hcur Hbound). simpl.
    replace (totalFrames s - 1 + 1) with (totalFrames s) by lia.
    rewrite Z.mod_same by lia. reflexivity.
  - intros k. revert s p Hplay Hcur Hbound.
    induction k as [| k IH]; intros s p Hplay Hcur Hbound.
    + simpl. rewrite Hcur, Z.add_0_r, Z.mod_small by lia. reflexivity.
    + change (run s (repeat Tick (S k))) with (run (step s Tick) (repeat Tick k)).
      rewrite (tick_playing s p Hplay Hcur Hbound).
      assert (Ht : 0 < totalFrames s) by lia.
      rewrite (IH (with_frame s (Num ((p + 1) mod totalFrames s)))
                  ((p + 1) mod totalFrames s)); try reflexivity.
      * unfold totalFrames, with_frame at 1. simpl. fold (totalFrames s).
        rewrite Z.add_mod_idemp_l by lia. f_equal. f_equal. lia.
      * exact Hplay.
      * unfold totalFrames, with_frame. simpl. fold (totalFrames s).
        apply Z.mod_pos_bound. lia.
Qed.

(** The spec's example: five frames, index 4, one tick gives index 0. *)
Lemma tick_advances_mod_witness :
  let s := {| trajectory := sample_doc 5 3 "A"; currentFrame := Num 4;
              isPlaying := true; selectedChain := None |} in
  num_frames (metadata (trajectory s)) = 5 /\
  currentFrame (step s Tick) = Num ((4 + 1) mod totalFrames s) /\
  currentFrame (step s Tick) = Num 0.
Proof.
  intros s.
  destruct (tick_advances_mod s 4 eq_refl eq_refl ltac:(unfold totalFrames; simpl; lia))
    as [H1 [H2 _]].
  split; [reflexivity |]. split; [exact H1 |].
  apply H2. reflexivity.
Defined.

End PlaygroundProofs.

(** ** Residue ranges *)

Definition min_step (m : ext) (a : Atom) : ext :=
  match residue_index a with Some i => Math_min m (Fin i) | None => m end.

Definition max_step (m : ext) (a : Atom) : ext :=
  match residue_index a with Some i => Math_max m (Fin i) | None => m end.

Lemma fold_min_step (atoms : list Atom) (e : ext) :
  fold_left min_step atoms e
  = fold_left (fun m i => Math_min m (Fin i)) (residue_indices atoms) e.
Proof.
  revert e. induction atoms as [| a atoms IH]; intros e; [reflexivity |].
  simpl. rewrite fold_left_app, IH. unfold min_step.
  destruct (residue_index a); reflexivity.
Qed.

Lemma fold_max_step (atoms : list Atom) (e : ext) :
  fold_left max_step atoms e
  = fold_left (fun m i => Math_max m (Fin i)) (residue_indices atoms) e.
Proof.
  revert e. induction atoms as [| a atoms IH]; intros e; [reflexivity |].
  simpl. rewrite fold_left_app, IH. unfold max_step.
  destruct (residue_index a); reflexivity.
Qed.

Lemma fold_Math_min_Fin (l : list Z) (i : Z) :
  fold_left (fun m j => Math_min m (Fin j)) l (Fin i) = Fin (fold_left Z.min l i).
Proof.
  revert i. induction l as [| j l IH]; intros i; [reflexivity |]. apply IH.
Qed.

Lemma fold_Math_max_Fin (l : list Z) (i : Z) :
  fold_left (fun m j => Math_max m (Fin j)) l (Fin i) = Fin (fold_left Z.max l i).
Proof.
  revert i. induction l as [| j l IH]; intros i; [reflexivity |]. apply IH.
Qed.

(** [fold_left Z.min rest i] is the least of [i :: rest], and it is one of
    them; likewise for [Z.max]. *)
Lemma fold_min_least (rest : list Z) (i : Z) :
  In (fold_left Z.min rest i) (i :: rest) /\
  Forall (fun j => fold_left Z.min rest i <= j) (i :: rest).
Proof.
  revert i. induction rest as [| j rest IH]; intros i.
  - simpl. split; [left; reflexivity | constructor; [lia | constructor]].
  - simpl. destruct (IH (Z.min i j)) as [Hin Hall].
    split.
    + destruct Hin as [Heq | Hin].
      * destruct (Z.min_spec i j) as [[_ E] | [_ E]]; rewrite <- Heq, E; auto.
      * auto.
    + inversion Hall as [| ? ? Hm Hrest]; subst.
      constructor; [lia | constructor; [lia | exact Hrest]].
Qed.

Lemma fold_max_greatest (rest : list Z) (i : Z) :
  In (fold_left Z.max rest i) (i :: rest) /\
  Forall (fun j => j <= fold_left Z.max rest i) (i :: rest).
Proof.
  revert i. induction rest as [| j rest IH]; intros i.
  - simpl. split; [left; reflexivity | constructor; [lia | constructor]].
  - simpl. destruct (IH (Z.max i j)) as [Hin Hall].
    split.
    + destruct Hin as [Heq | Hin].
      * destruct (Z.max_spec i j) as [[_ E] | [_ E]]; rewrite <- Heq, E; auto.
      * auto.
    + inversion Hall as [| ? ? Hm Hrest]; subst.
      constructor; [lia | constructor; [lia | exact Hrest]].
Qed.

(** C4: the residue range of a group is [{0, 0}] when no particle of the
    group has a residue index, and otherwise the least and the greatest of
    the residue indices present; particles without one play no part. *)
Theorem residueRange_min_max (atoms : list Atom) (cid : string) :
  let info := calculateChainInfo atoms cid in
  residueRange_start info
  = match residue_indices atoms with
    | [] => Fin 0
    | i :: rest => Fin (fold_left Z.min rest i)
    end /\
  residueRange_end info
  = match residue_indices atoms with
    | [] => Fin 0
    | i :: rest => Fin (fold_left Z.max rest i)
    end.
Proof.
  cbn zeta. unfold calculateChainInfo. cbn [residueRange_start residueRange_end].
  change (fun m a => match residue_index a with
                     | Some i => Math_min m (Fin i) | None => m end) with min_step.
  change (fun m a => match residue_index a with
                     | Some i => Math_max m (Fin i) | None => m end) with max_step.
  rewrite fold_min_step, fold_max_step.
  destruct (residue_indices atoms) as [| i rest].
  - split; reflexivity.
  - simpl. rewrite fold_Math_min_Fin, fold_Math_max_Fin. split; reflexivity.
Qed.

Open Scope list_scope.

(** ** Most common residues *)

Definition residue_names (atoms : list Atom) : list string := map residue atoms.

Definition frequency (l : list string) (n : string) : Z :=
  Z.of_nat (count_occ string_dec l n).

(** Distinct names in order of first appearance. *)
Fixpoint first_appearance (l : list string) : list string :=
  match l with
  | [] => []
  | n :: l' => n :: filter (fun m => negb (String.eqb m n)) (first_appearance l')
  end.

Definition frequency_table (l : list string) : t Z :=
  map (fun n => (n, frequency l n)) (first_appearance l).

(** The spec's list: the five most frequent names by descending frequency,
    equally frequent names in order of first appearance (a stable sort of
    the names taken in that order). *)
Definition spec_commonResidues (atoms : list Atom) : list string :=
  map fst (firstn 5 (sort_by_count (frequency_table (residue_names atoms)))).

Lemma first_appearance_in (l : list string) (m : string) :
  In m (first_appearance l) <-> In m l.
Proof.
  induction l as [| n l IH]; simpl; [tauto |].
  rewrite filter_In, IH. split.
  - intros [-> | [H _]]; auto.
  - intros [-> | H]; [auto |].
    destruct (String.eqb_spec m n) as [-> | Hne]; [auto |].
    right. split; [exact H |]. reflexivity.
Qed.

Lemma first_appearance_nodup (l : list string) : NoDup (first_appearance l).
Proof.
  induction l as [| n l IH]; simpl; constructor.
  - rewrite filter_In. intros [_ H]. rewrite String.eqb_refl in H. discriminate.
  - apply NoDup_filter, IH.
Qed.

Lemma first_appearance_snoc_notin (l : list string) (n : string) :
  ~ In n l -> first_appearance (l ++ [n]) = first_appearance l ++ [n].
Proof.
  induction l as [| m l IH]; intros H; [reflexivity |].
  simpl. rewrite IH by (intros Hn; apply H; right; exact Hn).
  rewrite filter_app. simpl.
  destruct (String.eqb_spec n m) as [-> | Hne].
  - exfalso. apply H. left. reflexivity.
  - reflexivity.
Qed.

Lemma first_appearance_snoc_in (l : list string) (n : string) :
  In n l -> first_appearance (l ++ [n]) = first_appearance l.
Proof.
  induction l as [| m l IH]; intros H; [destruct H |].
  simpl. f_equal.
  destruct (in_dec string_dec n l) as [Hin | Hnin].
  - rewrite IH by exact Hin. reflexivity.
  - destruct H as [-> | H]; [| contradiction].
    rewrite first_appearance_snoc_notin by exact Hnin.
    rewrite filter_app. simpl. rewrite String.eqb_refl. simpl.
    apply app_nil_r.
Qed.

Lemma frequency_snoc (l : list string) (n m : string) :
  frequency (l ++ [n]) m = frequency l m + (if String.eqb m n then 1 else 0).
Proof.
  unfold frequency. rewrite count_occ_app. simpl.
  destruct (string_dec n m) as [-> | Hne]; rewrite ?String.eqb_refl.
  - lia.
  - destruct (String.eqb_spec m n); [congruence | lia].
Qed.

Lemma own_map {V} (K : list string) (f : string -> V) (n : string) :
  own n (map (fun m => (m, f m)) K) = if in_dec string_dec n K then Some (f n) else None.
Proof.
  induction K as [| k K IH]; [reflexivity |].
  cbn [map own]. destruct (String.eqb_spec n k) as [-> | Hne].
  - destruct (in_dec string_dec k (k :: K)) as [_ | H]; [reflexivity |].
    exfalso. apply H. left. reflexivity.
  - rewrite IH.
    destruct (in_dec string_dec n K) as [Hi | Hi];
      destruct (in_dec string_dec n (k :: K)) as [Hj | Hj]; try reflexivity.
    + exfalso. apply Hj. right. exact Hi.
    + exfalso. destruct Hj as [Hj | Hj]; [congruence | contradiction].
Qed.

Lemma set_map_in {V} (K : list string) (f : string -> V) (n : string) (v : V) :
  NoDup K -> In n K ->
  set n v (map (fun m => (m, f m)) K)
  = map (fun m => (m, if String.eqb m n then v else f m)) K.
Proof.
  induction K as [| k K IH]; intros Hnd Hin; [destruct Hin |].
  inversion Hnd as [| ? ? Hk Hnd']; subst.
  simpl. destruct (String.eqb_spec n k) as [-> | Hne].
  - rewrite String.eqb_refl. f_equal. apply map_ext_in.
    intros m Hm. destruct (String.eqb_spec m k); [subst; contradiction | reflexivity].
  - destruct (String.eqb_spec k n); [congruence |].
    f_equal. apply IH; [exact Hnd' |].
    destruct Hin as [-> | H]; [congruence | exact H].
Qed.

Lemma set_map_notin {V} (K : list (string * V)) (n : string) (v : V) :
  ~ In n (map fst K) -> set n v K = (K ++ [(n, v)])%list.
Proof.
  induction K as [| [k w] K IH]; intros H; [reflexivity |].
  simpl. destruct (String.eqb_spec n k) as [-> | Hne].
  - exfalso. apply H. left. reflexivity.
  - rewrite IH; [reflexivity |]. intros Hn. apply H. right. exact Hn.
Qed.

Lemma count_residue_table (l : list string) (a : Atom) :
  is_prototype_member (residue a) = false ->
  count_residue (Some (frequency_table l)) a
  = Some (frequency_table (l ++ [residue a])).
Proof.
  intros Hproto. unfold count_residue, get, frequency_table.
  set (n := residue a).
  rewrite own_map.
  destruct (in_dec string_dec n (first_appearance l)) as [Hin | Hnin].
  - f_equal. rewrite set_map_in by (apply first_appearance_nodup || exact Hin).
    rewrite first_appearance_snoc_in by (apply first_appearance_in; exact Hin).
    apply map_ext. intros m. rewrite frequency_snoc.
    destruct (String.eqb_spec m n) as [-> | Hne]; [reflexivity |]. f_equal. lia.
  - unfold n in *. rewrite Hproto. f_equal.
    assert (Hl : ~ In (residue a) l) by (rewrite <- first_appearance_in; exact Hnin).
    rewrite set_map_notin.
    + rewrite first_appearance_snoc_notin by exact Hl. rewrite map_app. simpl.
      f_equal.
      * apply map_ext_in. intros m Hm. rewrite frequency_snoc.
        destruct (String.eqb_spec m (residue a)) as [-> | Hne]; [contradiction | ].
        f_equal. lia.
      * rewrite frequency_snoc, String.eqb_refl.
        unfold frequency. rewrite (proj1 (count_occ_not_In string_dec l (residue a)) Hl).
        reflexivity.
    + rewrite map_map. simpl. rewrite map_id. exact Hnin.
Qed.

Lemma fold_count_residue (atoms : list Atom) (l : list string) :
  forallb (fun a => negb (is_prototype_member (residue a))) atoms = true ->
  fold_left count_residue atoms (Some (frequency_table l))
  = Some (frequency_table (l ++ residue_names atoms)).
Proof.
  revert l. induction atoms as [| a atoms IH]; intros l H.
  - simpl. rewrite app_nil_r. reflexivity.
  - simpl in H. apply andb_prop in H as [Ha H].
    cbn [fold_left residue_names map].
    rewrite count_residue_table by (apply negb_true_iff; exact Ha).
    rewrite IH by exact H. rewrite <- app_assoc. reflexivity.
Qed.

Lemma entries_no_index {V} (o : t V) :
  forallb (fun p => negb (is_array_index (fst p))) o = true -> entries o = o.
Proof.
  intros H. unfold entries.
  assert (E1 : filter (fun p => is_array_index (fst p)) o = []).
  { induction o as [| p o IH]; [reflexivity |].
    simpl in *. apply andb_prop in H as [Hp H].
    apply negb_true_iff in Hp. rewrite Hp. apply IH, H. }
  assert (E2 : filter (fun p => negb (is_array_index (fst p))) o = o).
  { clear E1. induction o as [| p o IH]; [reflexivity |].
    simpl in *. apply andb_prop in H as [Hp H].
    rewrite Hp. f_equal. apply IH, H. }
  rewrite E1, E2. reflexivity.
Qed.

Lemma fold_count_residue_nil (atoms : list Atom) :
  forallb (fun a => negb (is_prototype_member (residue a))) atoms = true ->
  fold_left count_residue atoms (Some []) = Some (frequency_table (residue_names atoms)).
Proof. intros H. exact (fold_count_residue atoms [] H). Qed.

Lemma frequency_table_no_index (atoms : list Atom) :
  forallb (fun a => negb (is_array_index (residue a))) atoms = true ->
  forallb (fun p => negb (is_array_index (fst p)))
          (frequency_table (residue_names atoms)) = true.
Proof.
  intros H. rewrite forallb_forall in H |- *.
  intros p Hp. unfold frequency_table in Hp. apply in_map_iff in Hp as [n [<- Hn]].
  simpl. apply (proj1 (first_appearance_in _ _)) in Hn.
  unfold residue_names in Hn. apply in_map_iff in Hn as [a [<- Ha]].
  apply H, Ha.
Qed.

(** C5 (as stated, refuted): a group with one "ALA" and one "100"
    particle lists "100" first, though "ALA" appears first and both occur
    once: [Object.entries] puts the array-index key "100" ahead. *)
Lemma commonResidues_index_name_first :
  let atoms := [sample_atom "A" "ALA" None; sample_atom "A" "100" None] in
  commonResidues (calculateChainInfo atoms "A") = Some ["100"; "ALA"] /\
  spec_commonResidues atoms = ["ALA"; "100"] /\
  commonResidues (calculateChainInfo atoms "A") <> Some (spec_commonResidues atoms).
Proof. vm_compute. split; [reflexivity | split; [reflexivity | discriminate]]. Qed.

(** C5 (amended): for a group whose residue names are no
    [Object.prototype] member names, [commonResidues] is the first five
    names of a stable sort by descending frequency of the frequency table
    taken in [Object.entries] order: names that are array indices (such as
    "100") in ascending numeric order, then the other names in order of
    first appearance.  When no name is an array index this is the spec's
    list: descending frequency, ties by first appearance. *)
Theorem commonResidues_entries_order (atoms : list Atom) (cid : string)
  (Hproto : forallb (fun a => negb (is_prototype_member (residue a))) atoms = true) :
  commonResidues (calculateChainInfo atoms cid)
  = Some (map fst (firstn 5 (sort_by_count
                               (entries (frequency_table (residue_names atoms)))))) /\
  (forallb (fun a => negb (is_array_index (residue a))) atoms = true ->
   commonResidues (calculateChainInfo atoms cid) = Some (spec_commonResidues atoms)).
Proof.
  assert (E : commonResidues (calculateChainInfo atoms cid)
              = Some (map fst (firstn 5 (sort_by_count
                   (entries (frequency_table (residue_names atoms))))))).
  { unfold calculateChainInfo. cbn [commonResidues].
    rewrite (fold_count_residue_nil atoms Hproto). reflexivity. }
  split; [exact E |].
  intros Hidx. rewrite E.
  rewrite entries_no_index by (apply frequency_table_no_index; exact Hidx).
  reflexivity.
Qed.

Lemma commonResidues_entries_order_witness :
  let atoms := [sample_atom "A" "GLY" None; sample_atom "A" "ALA" None;
                sample_atom "A" "GLY" None; sample_atom "A" "100" None;
                sample_atom "A" "ALA" None; sample_atom "A" "SER" None;
                sample_atom "A" "7" None] in
  forallb (fun a => negb (is_prototype_member (residue a))) atoms = true /\
  commonResidues (calculateChainInfo atoms "A")
  = Some (map fst (firstn 5 (sort_by_count
                               (entries (frequency_table (residue_names atoms)))))) /\
  commonResidues (calculateChainInfo atoms "A") = Some ["GLY"; "ALA"; "7"; "100"; "SER"].
Proof.
  intros atoms.
  assert (H : forallb (fun a => negb (is_prototype_member (residue a))) atoms = true)
    by reflexivity.
  split; [exact H |]. split.
  - exact (proj1 (commonResidues_entries_order atoms "A" H)).
  - vm_compute. reflexivity.
Defined.

(** ** Chain grouping *)

Definition chain_names (atoms : list Atom) : list string := map chain atoms.

Definition of_chain (c : string) (atoms : list Atom) : list Atom :=
  filter (fun a => String.eqb (chain a) c) atoms.

(** The groups the spec describes: one per chain id, in order of first
    appearance, holding that chain's particles in frame order. *)
Definition groups_table (atoms : list Atom) : t (list Atom) :=
  map (fun c => (c, of_chain c atoms)) (first_appearance (chain_names atoms)).

Lemma of_chain_snoc (pre : list Atom) (a : Atom) (c : string) :
  of_chain c (pre ++ [a]) = of_chain c pre ++ (if String.eqb (chain a) c then [a] else []).
Proof. unfold of_chain. rewrite filter_app. reflexivity. Qed.

Lemma of_chain_absent (pre : list Atom) (c : string) :
  ~ In c (chain_names pre) -> of_chain c pre = [].
Proof.
  induction pre as [| a pre IH]; intros H; [reflexivity |].
  simpl. destruct (String.eqb_spec (chain a) c) as [E | _].
  - exfalso. apply H. left. exact E.
  - apply IH. intros Hc. apply H. right. exact Hc.
Qed.

Lemma group_atom_table (pre : list Atom) (a : Atom) :
  is_prototype_member (chain a) = false ->
  group_atom (Some (groups_table pre)) a = Some (groups_table (pre ++ [a])).
Proof.
  intros Hproto. unfold group_atom, get, groups_table.
  replace (chain_names (pre ++ [a])) with (chain_names pre ++ [chain a])
    by (unfold chain_names; rewrite map_app; reflexivity).
  rewrite own_map.
  destruct (in_dec string_dec (chain a) (first_appearance (chain_names pre)))
    as [Hin | Hnin].
  - f_equal. rewrite set_map_in by (apply first_appearance_nodup || exact Hin).
    rewrite first_appearance_snoc_in
      by (apply (proj1 (first_appearance_in _ _)); exact Hin).
    apply map_ext. intros m. rewrite of_chain_snoc.
    destruct (String.eqb_spec m (chain a)) as [-> | Hne].
    + rewrite String.eqb_refl. reflexivity.
    + destruct (String.eqb_spec (chain a) m); [congruence |].
      rewrite app_nil_r. reflexivity.
  - rewrite Hproto. f_equal.
    assert (Hl : ~ In (chain a) (chain_names pre))
      by (rewrite <- first_appearance_in; exact Hnin).
    rewrite set_map_notin.
    + rewrite first_appearance_snoc_notin by exact Hl. rewrite map_app. simpl.
      f_equal.
      * apply map_ext_in. intros m Hm. rewrite of_chain_snoc.
        destruct (String.eqb_spec (chain a) m) as [<- | Hne]; [contradiction |].
        rewrite app_nil_r. reflexivity.
      * rewrite of_chain_snoc, String.eqb_refl, of_chain_absent by exact Hl.
        reflexivity.
    + rewrite map_map. simpl. rewrite map_id. exact Hnin.
Qed.

Lemma fold_group_atom (atoms pre : list Atom) :
  forallb (fun a => negb (is_prototype_member (chain a))) atoms = true ->
  fold_left group_atom atoms (Some (groups_table pre)) = Some (groups_table (pre ++ atoms)).
Proof.
  revert pre. induction atoms as [| a atoms IH]; intros pre H.
  - simpl. rewrite app_nil_r. reflexivity.
  - simpl in H. apply andb_prop in H as [Ha H].
    cbn [fold_left].
    rewrite group_atom_table by (apply negb_true_iff; exact Ha).
    rewrite IH by exact H. rewrite <- app_assoc. reflexivity.
Qed.

(** Without prototype-member chain ids, [chainGroups] builds exactly the
    spec's groups. *)
Lemma chainGroups_table (atoms : list Atom) :
  forallb (fun a => negb (is_prototype_member (chain a))) atoms = true ->
  chainGroups atoms = Some (groups_table atoms).
Proof. intros H. exact (fold_group_atom atoms [] H). Qed.

Lemma groups_table_keys (atoms : list Atom) :
  map fst (groups_table atoms) = first_appearance (chain_names atoms).
Proof. unfold groups_table. rewrite map_map. apply map_id. Qed.

Lemma insert_index_perm {V} (p : string * V) (l : t V) :
  Permutation (insert_index p l) (p :: l).
Proof.
  induction l as [| q l IH]; [reflexivity |].
  simpl. destruct (array_index (fst p)), (array_index (fst q));
    try destruct (_ <? _)%N; try reflexivity;
    (etransitivity; [apply perm_skip, IH | apply perm_swap]).
Qed.

Lemma fold_insert_index_perm {V} (l : t V) :
  Permutation (fold_right insert_index [] l) l.
Proof.
  induction l as [| p l IH]; [reflexivity |].
  simpl. etransitivity; [apply insert_index_perm | apply perm_skip, IH].
Qed.

Lemma filter_split_perm {A} (f : A -> bool) (l : list A) :
  Permutation (filter f l ++ filter (fun p => negb (f p)) l) l.
Proof.
  induction l as [| a l IH]; [reflexivity |].
  simpl. destruct (f a); simpl.
  - apply perm_skip, IH.
  - etransitivity; [symmetry; apply Permutation_middle | apply perm_skip, IH].
Qed.

Lemma entries_perm {V} (o : t V) : Permutation (entries o) o.
Proof.
  unfold entries. etransitivity; [| apply (filter_split_perm (fun p => is_array_index (fst p)))].
  apply Permutation_app_tail, fold_insert_index_perm.
Qed.

Lemma own_perm {V} (l1 l2 : t V) (c : string) :
  Permutation l1 l2 -> NoDup (map fst l1) -> own c l1 = own c l2.
Proof.
  induction 1 as [| [k v] l1 l2 _ IH | [k v] [k' v'] l | l1 l2 l3 H12 IH12 _ IH23];
    intros Hnd; simpl in *.
  - reflexivity.
  - inversion Hnd; subst. rewrite IH by assumption. reflexivity.
  - inversion Hnd as [| ? ? Hk' Hnd']; subst.
    inversion Hnd' as [| ? ? Hk _]; subst.
    destruct (String.eqb_spec c k'), (String.eqb_spec c k); subst; try reflexivity.
    exfalso. apply Hk'. left. reflexivity.
  - rewrite IH12 by assumption. apply IH23.
    apply (Permutation_NoDup (Permutation_map fst H12)), Hnd.
Qed.

Definition info_of (p : string * list Atom) : string * ChainInfo :=
  let '(chainId, chainAtoms) := p in (chainId, calculateChainInfo chainAtoms chainId).

Lemma fold_chain_info (E : t (list Atom)) (acc : t ChainInfo) :
  NoDup (map fst acc ++ map fst E) ->
  fold_left (fun metadataMap '(chainId, chainAtoms) =>
               set chainId (calculateChainInfo chainAtoms chainId) metadataMap) E acc
  = acc ++ map info_of E.
Proof.
  revert acc. induction E as [| [k v] E IH]; intros acc Hnd.
  - simpl. rewrite app_nil_r. reflexivity.
  - simpl. rewrite set_map_notin.
    + rewrite IH.
      * rewrite <- app_assoc. reflexivity.
      * rewrite map_app, <- app_assoc. exact Hnd.
    + simpl in Hnd. apply NoDup_remove_2 in Hnd.
      intros Hk. apply Hnd, in_or_app. left. exact Hk.
Qed.

Lemma own_info_of (E : t (list Atom)) (c : string) :
  own c (map info_of E) = option_map (fun v => calculateChainInfo v c) (own c E).
Proof.
  induction E as [| [k v] E IH]; [reflexivity |].
  simpl. destruct (String.eqb_spec c k) as [-> | _]; [reflexivity | exact IH].
Qed.

Lemma chainMetadataMap_table (atoms : list Atom) :
  forallb (fun a => negb (is_prototype_member (chain a))) atoms = true ->
  chainMetadataMap (Some atoms) = Some (map info_of (entries (groups_table atoms))).
Proof.
  intros H. unfold chainMetadataMap. rewrite chainGroups_table by exact H.
  f_equal. rewrite fold_chain_info; [reflexivity |].
  simpl. apply (Permutation_NoDup (Permutation_map fst (Permutation_sym (entries_perm _)))).
  rewrite groups_table_keys. apply first_appearance_nodup.
Qed.

Lemma length_of_chain (atoms : list Atom) (c : string) :
  List.length (of_chain c atoms) = count_occ string_dec (chain_names atoms) c.
Proof.
  induction atoms as [| a atoms IH]; [reflexivity |].
  simpl. destruct (String.eqb_spec (chain a) c), (string_dec (chain a) c);
    simpl; congruence.
Qed.

Definition total_atomCount (m : t ChainInfo) : Z :=
  fold_right (fun p acc => atomCount (snd p) + acc) 0 m.

Lemma total_info_of (E : t (list Atom)) :
  total_atomCount (map info_of E)
  = Z.of_nat (list_sum (map (fun p => List.length (snd p)) E)).
Proof.
  induction E as [| [k v] E IH]; [reflexivity |].
  unfold total_atomCount in *. simpl. rewrite IH, Nat2Z.inj_add. reflexivity.
Qed.

Lemma list_sum_map_add {A} (f g : A -> nat) (K : list A) :
  list_sum (map (fun c => (f c + g c)%nat) K) = (list_sum (map f K) + list_sum (map g K))%nat.
Proof. induction K as [| k K IH]; simpl; [reflexivity | rewrite IH; lia]. Qed.

Lemma indicator_zero (s : string) (K : list string) :
  ~ In s K -> list_sum (map (fun c => if String.eqb s c then 1%nat else 0%nat) K) = 0%nat.
Proof.
  induction K as [| k K IH]; intros H; [reflexivity |].
  simpl. destruct (String.eqb_spec s k) as [-> | _].
  - exfalso. apply H. left. reflexivity.
  - apply IH. intros Hs. apply H. right. exact Hs.
Qed.

Lemma indicator_one (s : string) (K : list string) :
  NoDup K -> In s K ->
  list_sum (map (fun c => if String.eqb s c then 1%nat else 0%nat) K) = 1%nat.
Proof.
  induction K as [| k K IH]; intros Hnd Hin; [destruct Hin |].
  inversion Hnd as [| ? ? Hk Hnd']; subst.
  simpl. destruct (String.eqb_spec s k) as [-> | Hne].
  - rewrite indicator_zero by exact Hk. reflexivity.
  - apply IH; [exact Hnd' |]. destruct Hin as [-> | H]; [congruence | exact H].
Qed.

Lemma sum_of_chain (atoms : list Atom) (K : list string) :
  NoDup K -> (forall a, In a atoms -> In (chain a) K) ->
  list_sum (map (fun c => List.length (of_chain c atoms)) K) = List.length atoms.
Proof.
  intros Hnd. induction atoms as [| a atoms IH]; intros Hall.
  - simpl. clear Hnd Hall.
    induction K as [| k K IHK]; simpl; [reflexivity | exact IHK].
  - transitivity (list_sum (map (fun c => ((if String.eqb (chain a) c then 1 else 0)
                                           + List.length (of_chain c atoms))%nat) K)).
    + f_equal. apply map_ext. intros c. simpl.
      destruct (String.eqb (chain a) c); reflexivity.
    + rewrite list_sum_map_add, indicator_one, IH.
      * reflexivity.
      * intros a' Ha'. apply Hall. right. exact Ha'.
      * exact Hnd.
      * apply Hall. left. reflexivity.
Qed.

(** For a frame without prototype-member chain ids, every chain id of
    the frame has a [ChainInfo] whose [atomCount] is the number of the
    frame's particles with that chain id. *)
Lemma chain_atomCount_exact (atoms : list Atom) (c : string) :
  forallb (fun a => negb (is_prototype_member (chain a))) atoms = true ->
  In c (chain_names atoms) ->
  exists m info,
    chainMetadataMap (Some atoms) = Some m /\ own c m = Some info /\
    atomCount info = Z.of_nat (count_occ string_dec (chain_names atoms) c).
Proof.
  intros H Hc.
  exists (map info_of (entries (groups_table atoms))),
         (calculateChainInfo (of_chain c atoms) c).
  split; [apply chainMetadataMap_table, H |].
  split.
  - rewrite own_info_of.
    rewrite (own_perm _ _ c (entries_perm _)).
    + unfold groups_table. rewrite own_map.
      destruct (in_dec string_dec c (first_appearance (chain_names atoms))) as [_ | Hn].
      * reflexivity.
      * exfalso. apply Hn. apply first_appearance_in. exact Hc.
    + apply (Permutation_NoDup (Permutation_map fst (Permutation_sym (entries_perm _)))).
      rewrite groups_table_keys. apply first_appearance_nodup.
  - cbn [atomCount calculateChainInfo]. rewrite length_of_chain. reflexivity.
Qed.

(** For a frame without prototype-member chain ids, the [atomCount]s of
    all groups add up to the number of particles of the frame. *)
Lemma chain_groups_partition (atoms : list Atom) :
  forallb (fun a => negb (is_prototype_member (chain a))) atoms = true ->
  exists m, chainMetadataMap (Some atoms) = Some m /\
            total_atomCount m = Z.of_nat (List.length atoms).
Proof.
  intros H. eexists. split; [apply chainMetadataMap_table, H |].
  rewrite total_info_of.
  rewrite (Permutation_list_sum (Permutation_map (fun p => List.length (snd p)) (entries_perm _))).
  unfold groups_table. rewrite map_map. cbn [snd].
  rewrite sum_of_chain; [reflexivity | apply first_appearance_nodup |].
  intros a Ha. apply first_appearance_in. unfold chain_names. apply in_map, Ha.
Qed.

(** C3 (code defect): a frame whose only particle has chain id
    "toString" gets no [ChainInfo] at all: [chainGroups["toString"]] is
    the inherited [Object.prototype.toString], truthy, so no group array is
    created and the [push] on it throws. *)
Theorem chainMetadataMap_toString_chain_throws :
  count_occ string_dec (chain_names [sample_atom "toString" "ALA" None]) "toString" = 1%nat /\
  chainMetadataMap (Some [sample_atom "toString" "ALA" None]) = None.
Proof. split; reflexivity. Qed.

(** C10 (code defect): a frame with a chain "A" particle and a chain
    "constructor" particle is not partitioned: the grouping throws at the
    second particle, so no group, and no [atomCount] sum, comes out. *)
Theorem chainGroups_constructor_chain_throws :
  chainGroups [sample_atom "A" "ALA" None; sample_atom "constructor" "GLY" None] = None /\
  chainMetadataMap (Some [sample_atom "A" "ALA" None; sample_atom "constructor" "GLY" None])
  = None.
Proof. split; reflexivity. Qed.

(** ** [hashString] *)
Section HashProofs.
Import Hash.

Lemma ToInt32_range (v : Z) : -2 ^ 31 <= ToInt32 v < 2 ^ 31.
Proof.
  unfold ToInt32.
  pose proof (Z.mod_pos_bound (v + 2 ^ 31) (2 ^ 32) ltac:(lia)). lia.
Qed.

Lemma ToInt32_congr (a c : Z) : a mod 2 ^ 32 = c mod 2 ^ 32 -> ToInt32 a = ToInt32 c.
Proof.
  intros H. unfold ToInt32.
  rewrite (Z.add_mod a (2 ^ 31)), (Z.add_mod c (2 ^ 31)) by lia.
  rewrite H. reflexivity.
Qed.

Lemma ToInt32_mod (v : Z) : ToInt32 v mod 2 ^ 32 = v mod 2 ^ 32.
Proof.
  unfold ToInt32. rewrite (Z.mod_eq (v + 2 ^ 31)) by lia.
  replace (v + 2 ^ 31 - 2 ^ 32 * ((v + 2 ^ 31) / 2 ^ 32) - 2 ^ 31)
    with (v + (- ((v + 2 ^ 31) / 2 ^ 32)) * 2 ^ 32) by ring.
  apply Z.mod_add. lia.
Qed.

Lemma ToInt32_shift (v : Z) : exists k, ToInt32 v = v + k * 2 ^ 32.
Proof.
  exists (- ((v + 2 ^ 31) / 2 ^ 32)). unfold ToInt32.
  rewrite (Z.mod_eq (v + 2 ^ 31)) by lia. ring.
Qed.

Lemma ToInt32_idem (v : Z) : ToInt32 (ToInt32 v) = ToInt32 v.
Proof. apply ToInt32_congr, ToInt32_mod. Qed.

Lemma hash_step_poly (h : Z) (c : ascii) :
  hash_step h c = ToInt32 (h * 31 + charCodeAt c).
Proof.
  unfold hash_step. cbv zeta. rewrite Z.land_diag.
  apply ToInt32_congr.
  rewrite Z.shiftl_mul_pow2 by lia.
  destruct (ToInt32_shift h) as [k1 E1]. rewrite E1.
  destruct (ToInt32_shift ((h + k1 * 2 ^ 32) * 2 ^ 5)) as [k2 E2]. rewrite E2.
  replace ((h + k1 * 2 ^ 32) * 2 ^ 5 + k2 * 2 ^ 32 - h + charCodeAt c)
    with (h * 31 + charCodeAt c + (k1 * 2 ^ 5 + k2) * 2 ^ 32) by ring.
  apply Z.mod_add. lia.
Qed.

Lemma poly31_congr (s : string) (a c : Z) :
  a mod 2 ^ 32 = c mod 2 ^ 32 -> poly31 s a mod 2 ^ 32 = poly31 s c mod 2 ^ 32.
Proof.
  revert a c. induction s as [| ch s IH]; intros a c H; [exact H |].
  simpl. apply IH.
  rewrite Z.add_mod, Z.mul_mod, H, <- Z.mul_mod, <- Z.add_mod by lia.
  reflexivity.
Qed.

Lemma hash_loop_poly (s : string) (h : Z) :
  ToInt32 h = h -> hash_loop s h = ToInt32 (poly31 s h).
Proof.
  revert h. induction s as [| c s IH]; intros h Hh; simpl; [symmetry; exact Hh |].
  rewrite IH by (rewrite hash_step_poly; apply ToInt32_idem).
  apply ToInt32_congr, poly31_congr.
  rewrite hash_step_poly. apply ToInt32_mod.
Qed.

(** [hashString] is the absolute value of the 32-bit two's-complement
    reading of the polynomial hash [h * 31 + charCode] taken over all the
    characters: the loop's [(hash << 5) - hash] and [hash & hash] compute
    [hash * 31] modulo 2^32. *)
Theorem hashString_poly31 (s : string) :
  hashString s = Z.abs (ToInt32 (poly31 s 0)).
Proof. unfold hashString. rewrite hash_loop_poly; reflexivity. Qed.

(** [hashString] is never negative and at most 2^31, one more than the
    largest 32-bit signed integer: [Math.abs] of -2^31 is 2^31, and the
    string "I='<*!" reaches it. *)
Theorem hashString_range (s : string) :
  0 <= hashString s <= 2 ^ 31 /\ hashString "I='<*!" = 2 ^ 31.
Proof.
  split; [| vm_compute; reflexivity].
  unfold hashString. rewrite hash_loop_poly by reflexivity.
  pose proof (ToInt32_range (poly31 s 0)). lia.
Qed.

End HashProofs.

(** ** [rgbToHex] *)
Section ColorProofs.
Import Colors.

Lemma toHex_clamp (n : Z) : toHex n = toHex (Z.max 0 (Z.min 255 n)).
Proof.
  unfold toHex.
  replace (Z.max 0 (Z.min 255 (Z.max 0 (Z.min 255 n)))) with (Z.max 0 (Z.min 255 n))
    by lia.
  reflexivity.
Qed.

Lemma toHex_table :
  forallb (fun k => match decode_byte (toHex (Z.of_nat k)) with
                    | Some v => Z.eqb v (Z.of_nat k)
                    | None => false
                    end) (seq 0 256) = true.
Proof. vm_compute. reflexivity. Qed.

Lemma toHex_byte (n : Z) : 0 <= n <= 255 -> decode_byte (toHex n) = Some n.
Proof.
  intros Hn. pose proof toHex_table as T. rewrite forallb_forall in T.
  specialize (T (Z.to_nat n) ltac:(apply in_seq; lia)).
  rewrite Z2Nat.id in T by lia.
  destruct (decode_byte (toHex n)) as [v |]; [| discriminate].
  apply Z.eqb_eq in T. subst. reflexivity.
Qed.

Lemma toHex_decode (n : Z) : decode_byte (toHex n) = Some (Z.max 0 (Z.min 255 n)).
Proof. rewrite toHex_clamp. apply toHex_byte. lia. Qed.

Lemma decode_two (s : string) (v : Z) :
  decode_byte s = Some v -> exists c1 c2, s = String c1 (String c2 EmptyString).
Proof.
  destruct s as [| c1 [| c2 [| c3 s]]]; simpl; try discriminate.
  intros _. exists c1, c2. reflexivity.
Qed.

Lemma toHex_two (n : Z) : exists c1 c2, toHex n = String c1 (String c2 EmptyString).
Proof. exact (decode_two _ _ (toHex_decode n)). Qed.

Lemma Math_round_ge (p : Q) : (255 <= p)%Q -> 255 <= Math_round p.
Proof.
  intros Hp. unfold Math_round. rewrite <- (Qfloor_Z 255).
  apply Qfloor_resp_le.
  apply Qle_trans with p; [exact Hp |].
  rewrite <- (Qplus_0_r p) at 1. apply Qplus_le_compat;
    [apply Qle_refl | vm_compute; discriminate].
Qed.

Lemma Math_round_le (p : Q) : (p <= 0)%Q -> Math_round p <= 0.
Proof.
  intros Hp. unfold Math_round.
  change 0 with (Qfloor (0 + (1 # 2))).
  apply Qfloor_resp_le, Qplus_le_compat; [exact Hp | apply Qle_refl].
Qed.

Section Rounding.
(** A rounding of products that is monotone and exact on [0] and [255],
    as binary64 rounding to nearest is. *)
Variable fl : Q -> Q.
Hypothesis fl_mono : forall p q, (p <= q)%Q -> (fl p <= fl q)%Q.
Hypothesis fl_0 : (fl 0 == 0)%Q.
Hypothesis fl_255 : (fl 255 == 255)%Q.

Lemma channel_ff (q : Q) : (1 <= q)%Q -> toHex (Math_round (fl (q * 255)%Q)) = "ff"%string.
Proof.
  intros Hq.
  assert (H : 255 <= Math_round (fl (q * 255)%Q)).
  { apply Math_round_ge. apply Qle_trans with (fl 255);
      [apply Qle_lteq; right; apply Qeq_sym, fl_255 |]. apply fl_mono.
    apply Qle_trans with (1 * 255)%Q; [vm_compute; discriminate |].
    apply Qmult_le_compat_r; [exact Hq | vm_compute; discriminate]. }
  rewrite toHex_clamp.
  replace (Z.max 0 (Z.min 255 (Math_round (fl (q * 255)%Q)))) with 255 by lia.
  reflexivity.
Qed.

Lemma channel_00 (q : Q) : (q <= 0)%Q -> toHex (Math_round (fl (q * 255)%Q)) = "00"%string.
Proof.
  intros Hq.
  assert (H : Math_round (fl (q * 255)%Q) <= 0).
  { apply Math_round_le. apply Qle_trans with (fl 0);
      [| apply Qle_lteq; right; exact fl_0]. apply fl_mono.
    apply Qle_trans with (0 * 255)%Q;
      [apply Qmult_le_compat_r; [exact Hq | vm_compute; discriminate] |
       vm_compute; discriminate]. }
  rewrite toHex_clamp.
  replace (Z.max 0 (Z.min 255 (Math_round (fl (q * 255)%Q)))) with 0 by lia.
  reflexivity.
Qed.

End Rounding.

(** [rgbToHex] gives "#" followed by three two-digit lower-case
    hexadecimal numbers, which read back as the channels
    [Math.round(c * 255)] clamped to [0, 255], the product [c * 255] being
    the binary64 one, whatever its rounding [fl]. *)
Theorem rgbToHex_round_trip (fl : Q -> Q) (c : RGBColor) :
  exists sr sg sb,
    rgbToHex fl (Some c) = ("#" ++ sr ++ sg ++ sb)%string /\
    decode_byte sr = Some (Z.max 0 (Z.min 255 (Math_round (fl (r c * 255)%Q)))) /\
    decode_byte sg = Some (Z.max 0 (Z.min 255 (Math_round (fl (g c * 255)%Q)))) /\
    decode_byte sb = Some (Z.max 0 (Z.min 255 (Math_round (fl (b c * 255)%Q)))).
Proof.
  exists (toHex (Math_round (fl (r c * 255)%Q))), (toHex (Math_round (fl (g c * 255)%Q))),
         (toHex (Math_round (fl (b c * 255)%Q))).
  split; [reflexivity |].
  split; [| split]; apply toHex_decode.
Qed.

(** A missing colour gives white; for a product rounding that is
    monotone and exact on [0] and [255], as binary64's is, a channel at or
    above 1 saturates to "ff" and a channel at or below 0 to "00". *)
Theorem rgbToHex_saturates (fl : Q -> Q)
  (fl_mono : forall p q, (p <= q)%Q -> (fl p <= fl q)%Q)
  (fl_0 : (fl 0 == 0)%Q) (fl_255 : (fl 255 == 255)%Q) (c : RGBColor) :
  rgbToHex fl None = "#ffffff"%string /\
  ((1 <= r c)%Q -> substring 1 2 (rgbToHex fl (Some c)) = "ff"%string) /\
  ((r c <= 0)%Q -> substring 1 2 (rgbToHex fl (Some c)) = "00"%string) /\
  ((1 <= g c)%Q -> substring 3 2 (rgbToHex fl (Some c)) = "ff"%string) /\
  ((g c <= 0)%Q -> substring 3 2 (rgbToHex fl (Some c)) = "00"%string) /\
  ((1 <= b c)%Q -> substring 5 2 (rgbToHex fl (Some c)) = "ff"%string) /\
  ((b c <= 0)%Q -> substring 5 2 (rgbToHex fl (Some c)) = "00"%string).
Proof.
  assert (E : rgbToHex fl (Some c)
              = ("#" ++ toHex (Math_round (fl (r c * 255)%Q)) ++ toHex (Math_round (fl (g c * 255)%Q))
                 ++ toHex (Math_round (fl (b c * 255)%Q)))%string) by reflexivity.
  destruct (toHex_two (Math_round (fl (r c * 255)%Q))) as [r1 [r2 Er]].
  destruct (toHex_two (Math_round (fl (g c * 255)%Q))) as [g1 [g2 Eg]].
  destruct (toHex_two (Math_round (fl (b c * 255)%Q))) as [b1 [b2 Eb]].
  pose proof (channel_ff fl fl_mono fl_255) as Cff.
  pose proof (channel_00 fl fl_mono fl_0) as C00.
  split; [reflexivity |].
  repeat split; intros H; rewrite E.
  - rewrite (Cff _ H), Eg, Eb. reflexivity.
  - rewrite (C00 _ H), Eg, Eb. reflexivity.
  - rewrite Er, (Cff _ H), Eb. reflexivity.
  - rewrite Er, (C00 _ H), Eb. reflexivity.
  - rewrite Er, Eg, (Cff _ H). reflexivity.
  - rewrite Er, Eg, (C00 _ H). reflexivity.
Qed.

End ColorProofs.

(** ** [calculateChainInfo]: residue count and most common residues *)
Section ChainInfoProofs.

Lemma set_add_spec (i : Z) (s : list Z) :
  NoDup s -> NoDup (set_add i s) /\ (forall j, In j (set_add i s) <-> i = j \/ In j s).
Proof.
  intros Hs. unfold set_add. destruct (existsb (Z.eqb i) s) eqn:E.
  - apply existsb_exists in E as [k [Hk Ek]]. apply Z.eqb_eq in Ek. subst k.
    split; [exact Hs |]. intros j. split; [auto |]. intros [<- | H]; auto.
  - split.
    + apply (Permutation_NoDup (Permutation_cons_append s i)). constructor; [| exact Hs].
      intros Hin. assert (existsb (Z.eqb i) s = true) as T
        by (apply existsb_exists; exists i; split; [exact Hin | apply Z.eqb_refl]).
      congruence.
    + intros j. rewrite in_app_iff. simpl. tauto.
Qed.

Lemma fold_unique_residues (atoms : list Atom) (u : list Z) :
  fold_left (fun s a => match residue_index a with
                        | Some i => set_add i s
                        | None => s
                        end) atoms u
  = fold_left (fun s i => set_add i s) (residue_indices atoms) u.
Proof.
  revert u. induction atoms as [| a atoms IH]; intros u; [reflexivity |].
  simpl. destruct (residue_index a); simpl; apply IH.
Qed.

Lemma fold_set_add (l u : list Z) :
  NoDup u ->
  NoDup (fold_left (fun s i => set_add i s) l u) /\
  (forall j, In j (fold_left (fun s i => set_add i s) l u) <-> In j u \/ In j l).
Proof.
  revert u. induction l as [| i l IH]; intros u Hu; simpl.
  - split; [exact Hu | tauto].
  - destruct (set_add_spec i u Hu) as [Hnd Hin].
    destruct (IH _ Hnd) as [Hnd' Hin']. split; [exact Hnd' |].
    intros j. rewrite Hin', Hin. tauto.
Qed.

(** [residueCount] is the number of distinct residue indices among the
    chain's atoms; atoms without a residue index are not counted. *)
Theorem residueCount_distinct (atoms : list Atom) (cid : string) :
  residueCount (calculateChainInfo atoms cid)
  = Z.of_nat (List.length (nodup Z.eq_dec (residue_indices atoms))).
Proof.
  unfold calculateChainInfo. cbn [residueCount].
  rewrite fold_unique_residues. f_equal.
  destruct (fold_set_add (residue_indices atoms) [] (NoDup_nil _)) as [Hnd Hin].
  apply Permutation_length, NoDup_Permutation; [exact Hnd | apply NoDup_nodup |].
  intros j. rewrite Hin, nodup_In. simpl. tauto.
Qed.

Definition by_count_desc (p q : string * Z) : Prop := snd q <= snd p.

Lemma insert_by_count_perm (p : string * Z) (l : t Z) :
  Permutation (insert_by_count p l) (p :: l).
Proof.
  induction l as [| q l IH]; simpl; [reflexivity |].
  destruct (snd q <? snd p); [reflexivity |].
  rewrite IH. apply perm_swap.
Qed.

Lemma sort_by_count_perm_acc (l acc : t Z) :
  Permutation (fold_left (fun acc p => insert_by_count p acc) l acc) (l ++ acc).
Proof.
  revert acc. induction l as [| p l IH]; intros acc; simpl; [reflexivity |].
  rewrite IH, insert_by_count_perm. symmetry. apply Permutation_middle.
Qed.

Lemma sort_by_count_perm (l : t Z) : Permutation (sort_by_count l) l.
Proof.
  unfold sort_by_count. rewrite sort_by_count_perm_acc. rewrite app_nil_r. reflexivity.
Qed.

Lemma insert_by_count_sorted (p : string * Z) (l : t Z) :
  StronglySorted by_count_desc l -> StronglySorted by_count_desc (insert_by_count p l).
Proof.
  induction l as [| q l IH]; intros Hl; simpl.
  - repeat constructor.
  - inversion Hl as [| ? ? Hl' Hq]; subst.
    rewrite Forall_forall in Hq. unfold by_count_desc in *.
    destruct (snd q <? snd p) eqn:E.
    + apply Z.ltb_lt in E. constructor; [exact Hl |].
      apply Forall_forall. intros r [<- | Hr]; unfold by_count_desc; [lia |].
      specialize (Hq r Hr). lia.
    + apply Z.ltb_ge in E. constructor; [apply IH, Hl' |].
      apply Forall_forall. intros r Hr.
      apply (Permutation_in _ (insert_by_count_perm p l)) in Hr as [<- | Hr];
        unfold by_count_desc; [lia | apply Hq, Hr].
Qed.

Lemma sort_by_count_sorted (l : t Z) : StronglySorted by_count_desc (sort_by_count l).
Proof.
  unfold sort_by_count.
  assert (G : forall acc, StronglySorted by_count_desc acc ->
    StronglySorted by_count_desc (fold_left (fun acc p => insert_by_count p acc) l acc)).
  { induction l as [| p l IH]; intros acc Hacc; simpl; [exact Hacc |].
    apply IH, insert_by_count_sorted, Hacc. }
  apply G. constructor.
Qed.

Lemma in_firstn_in {A} (k : nat) (l : list A) (a : A) : In a (firstn k l) -> In a l.
Proof. intros H. rewrite <- (firstn_skipn k l). apply in_or_app. left. exact H. Qed.

Lemma in_skipn_in {A} (k : nat) (l : list A) (a : A) : In a (skipn k l) -> In a l.
Proof. intros H. rewrite <- (firstn_skipn k l). apply in_or_app. right. exact H. Qed.

Lemma sorted_firstn_skipn (k : nat) (l : t Z) (p q : string * Z) :
  StronglySorted by_count_desc l -> In p (firstn k l) -> In q (skipn k l) -> snd q <= snd p.
Proof.
  revert k. induction l as [| a l IH]; intros k Hs Hp Hq.
  - destruct k; destruct Hp.
  - destruct k as [| k]; [destruct Hp |].
    inversion Hs as [| ? ? Hs' Ha]; subst. simpl in Hp, Hq.
    destruct Hp as [<- | Hp].
    + rewrite Forall_forall in Ha. apply Ha. exact (in_skipn_in _ _ _ Hq).
    + exact (IH k Hs' Hp Hq).
Qed.

Lemma NoDup_firstn {A} (k : nat) (l : list A) : NoDup l -> NoDup (firstn k l).
Proof.
  intros H. rewrite <- (firstn_skipn k l) in H. exact (NoDup_app_remove_r _ _ H).
Qed.

Lemma frequency_table_in (l : list string) (p : string * Z) :
  In p (frequency_table l) <-> In (fst p) l /\ snd p = frequency l (fst p).
Proof.
  unfold frequency_table. rewrite in_map_iff. split.
  - intros [n [<- Hn]]. simpl. split; [apply first_appearance_in, Hn | reflexivity].
  - intros [Hin Hf]. exists (fst p). split.
    + destruct p; simpl in *. rewrite Hf. reflexivity.
    + apply first_appearance_in, Hin.
Qed.

(** When no residue name is an [Object.prototype] member, [commonResidues]
    lists min(5, d) distinct names of the chain, d the number of distinct
    residue names, and no residue name left out occurs more often than a
    listed one. *)
Theorem commonResidues_top5 (atoms : list Atom) (cid : string)
  (Hproto : forallb (fun a => negb (is_prototype_member (residue a))) atoms = true) :
  exists top,
    commonResidues (calculateChainInfo atoms cid) = Some top /\
    List.length top = Nat.min 5 (List.length (first_appearance (residue_names atoms))) /\
    NoDup top /\
    (forall n, In n top -> In n (residue_names atoms)) /\
    (forall n m, In n top -> In m (residue_names atoms) -> ~ In m top ->
       frequency (residue_names atoms) m <= frequency (residue_names atoms) n).
Proof.
  set (names := residue_names atoms).
  set (L := sort_by_count (entries (frequency_table names))).
  assert (HP : Permutation L (frequency_table names)).
  { unfold L. rewrite sort_by_count_perm. apply entries_perm. }
  assert (Hkeys : Permutation (map fst L) (first_appearance names)).
  { rewrite HP. unfold frequency_table. rewrite map_map. rewrite map_id. reflexivity. }
  exists (map fst (firstn 5 L)). split; [| split; [| split; [| split]]].
  - unfold calculateChainInfo. cbn [commonResidues].
    rewrite fold_count_residue_nil by exact Hproto. reflexivity.
  - rewrite length_map, length_firstn, (Permutation_length HP).
    unfold frequency_table. rewrite length_map. reflexivity.
  - rewrite <- firstn_map. apply NoDup_firstn.
    apply (Permutation_NoDup (Permutation_sym Hkeys)), first_appearance_nodup.
  - intros n Hn. apply in_map_iff in Hn as [p [<- Hp]].
    apply in_firstn_in, (Permutation_in _ HP), frequency_table_in in Hp. apply Hp.
  - intros n m Hn Hm Hnot. apply in_map_iff in Hn as [p [<- Hp]].
    assert (Hq : In (m, frequency names m) L).
    { apply (Permutation_in _ (Permutation_sym HP)), frequency_table_in. simpl. auto. }
    assert (Hpf : snd p = frequency names (fst p)).
    { apply (in_firstn_in _ _ _), (Permutation_in _ HP), frequency_table_in in Hp.
      apply Hp. }
    rewrite <- (firstn_skipn 5 L) in Hq. apply in_app_or in Hq as [Hq | Hq].
    + exfalso. apply Hnot. apply in_map_iff. exists (m, frequency names m). auto.
    + rewrite <- Hpf.
      exact (sorted_firstn_skipn 5 L p _ (sort_by_count_sorted _) Hp Hq).
Qed.

End ChainInfoProofs.

(** ** [parsePDB] and the upload path *)
Section PDBProofs.
Variable parseFloat : string -> Q.

Lemma filter_none {A} (f : A -> bool) (l : list A) :
  forallb (fun v => negb (f v)) l = true -> filter f l = [].
Proof.
  induction l as [| v l IH]; simpl; [reflexivity |].
  rewrite andb_true_iff. intros [Hv Hl]. destruct (f v); [discriminate |]. apply IH, Hl.
Qed.

Lemma filter_some {A} (f : A -> bool) (l : list A) :
  existsb f l = true -> filter f l <> [].
Proof.
  induction l as [| v l IH]; simpl; [discriminate |].
  destruct (f v); [discriminate |]. exact IH.
Qed.

Lemma length_substring (n m : nat) (s : string) : (String.length (substring n m s) <= m)%nat.
Proof.
  revert n m. induction s as [| c s IH]; intros n m; destruct n, m; simpl; try lia;
    first [apply IH | specialize (IH 0%nat m); lia].
Qed.

Lemma length_trim_start (s : string) : (String.length (PDB.trim_start s) <= String.length s)%nat.
Proof. induction s as [| c s IH]; simpl; [lia |]. destruct (PDB.is_space c); simpl; lia. Qed.

Lemma length_rev_string (s acc : string) :
  String.length (PDB.rev_string s acc) = (String.length s + String.length acc)%nat.
Proof. revert acc. induction s as [| c s IH]; intros acc; simpl; [reflexivity |]. rewrite IH. simpl. lia. Qed.

Lemma length_trim (s : string) : (String.length (PDB.trim s) <= String.length s)%nat.
Proof.
  unfold PDB.trim. rewrite length_rev_string. simpl.
  pose proof (length_trim_start (PDB.rev_string (PDB.trim_start s) "")).
  rewrite length_rev_string in H. pose proof (length_trim_start s). simpl in *. lia.
Qed.

Lemma prototype_member_length (k : string) :
  is_prototype_member k = true -> (7 <= String.length k)%nat.
Proof.
  unfold is_prototype_member. intros H. apply existsb_exists in H as [m [Hm Ek]].
  apply String.eqb_eq in Ek. subst m.
  assert (T : forallb (fun m => (7 <=? String.length m)%nat) object_prototype_members = true)
    by reflexivity.
  rewrite forallb_forall in T. apply Nat.leb_le, T, Hm.
Qed.

Lemma short_not_prototype (k : string) :
  (String.length k <= 6)%nat -> is_prototype_member k = false.
Proof.
  intros H. destruct (is_prototype_member k) eqn:E; [| reflexivity].
  apply prototype_member_length in E. lia.
Qed.

Lemma parse_atom_chain_short (line : string) :
  (String.length (chain (PDB.parse_atom parseFloat line)) <= 1)%nat.
Proof.
  unfold PDB.parse_atom. cbn [chain]. unfold PDB.js_substring.
  pose proof (length_trim (substring 21 (22 - 21) line)).
  pose proof (length_substring 21 (22 - 21) line). lia.
Qed.

Lemma parse_atom_residue_short (line : string) :
  (String.length (residue (PDB.parse_atom parseFloat line)) <= 3)%nat.
Proof.
  unfold PDB.parse_atom. cbn [residue]. unfold PDB.js_substring.
  pose proof (length_trim (substring 17 (20 - 17) line)).
  pose proof (length_substring 17 (20 - 17) line). lia.
Qed.

Lemma forallb_map_parse (f : Atom -> bool) (lines : list string) :
  (forall line, f (PDB.parse_atom parseFloat line) = true) ->
  forallb f (map (PDB.parse_atom parseFloat) lines) = true.
Proof.
  intros H. apply forallb_forall. intros a Ha. apply in_map_iff in Ha as [l [<- _]]. apply H.
Qed.

Lemma forallb_filter {A} (f p : A -> bool) (l : list A) :
  forallb f l = true -> forallb f (filter p l) = true.
Proof.
  rewrite !forallb_forall. intros H a Ha. apply filter_In in Ha as [Ha _]. apply H, Ha.
Qed.

(** Dropping a file whose text has no ATOM or HETATM line still loads a
    trajectory: one empty frame of 0 atoms, played from frame 0, with no
    chains. *)
Theorem load_non_pdb_text (fileName text : string) (s : Playground.state)
  (Hnone : forallb (fun l => negb (PDB.is_atom_line l)) (PDB.split_lines text) = true) :
  let s' := Playground.on_read parseFloat fileName s (Playground.Loaded text) in
  frames (Playground.trajectory s') = [[]] /\
  num_atoms (metadata (Playground.trajectory s')) = 0 /\
  Playground.currentFrame s' = Playground.Num 0 /\
  Playground.isPlaying s' = true /\
  View.current_atoms s' = Some [] /\
  chainMetadataMap (View.current_atoms s') = Some [].
Proof.
  cbn zeta. unfold Playground.on_read, Playground.step, PDB.parsePDB.
  rewrite (filter_none _ _ Hnone). repeat split; reflexivity.
Qed.

(** Whatever text is dropped, the chain map of the loaded frame exists
    (chain ids are at most 1 character and residue names at most 3, so
    none is an [Object.prototype] member), its atom counts add up to the
    document's [num_atoms], and every chain has its common residues. *)
Theorem load_pdb_chain_map (fileName text : string) (s : Playground.state) :
  let s' := Playground.on_read parseFloat fileName s (Playground.Loaded text) in
  exists m, chainMetadataMap (View.current_atoms s') = Some m /\
    total_atomCount m = num_atoms (metadata (Playground.trajectory s')) /\
    Forall (fun p => commonResidues (snd p) <> None) m.
Proof.
  cbn zeta. unfold Playground.on_read, Playground.step, PDB.parsePDB, View.current_atoms.
  cbn [Playground.currentFrame Playground.trajectory frames metadata num_atoms].
  change (0 <? 0) with false. cbn iota. change (Z.to_nat 0) with 0%nat. cbn [nth_error].
  set (atoms := map (PDB.parse_atom parseFloat)
                    (filter PDB.is_atom_line (PDB.split_lines text))).
  assert (Hc : forallb (fun a => negb (is_prototype_member (chain a))) atoms = true).
  { apply forallb_map_parse. intros line.
    rewrite short_not_prototype; [reflexivity |].
    pose proof (parse_atom_chain_short line). lia. }
  assert (Hr : forallb (fun a => negb (is_prototype_member (residue a))) atoms = true).
  { apply forallb_map_parse. intros line.
    rewrite short_not_prototype; [reflexivity |].
    pose proof (parse_atom_residue_short line). lia. }
  destruct (chain_groups_partition atoms Hc) as [m [Hm Ht]].
  exists m. split; [exact Hm |]. split; [exact Ht |].
  rewrite chainMetadataMap_table in Hm by exact Hc. injection Hm as <-.
  apply Forall_forall. intros p Hp. apply in_map_iff in Hp as [[c l] [<- Hq]].
  apply (Permutation_in _ (entries_perm _)) in Hq.
  unfold groups_table in Hq. apply in_map_iff in Hq as [c' [Eq _]].
  injection Eq as <- <-.
  unfold info_of, calculateChainInfo. cbn [snd commonResidues].
  rewrite fold_count_residue_nil by (apply forallb_filter, Hr). discriminate.
Qed.

End PDBProofs.

(** ** The bounds [parsePDB] computes *)
Section BoundsProofs.
Variable fadd : PDBBounds.jsnum -> PDBBounds.jsnum -> PDBBounds.jsnum.
Variable fdiv : PDBBounds.jsnum -> PDBBounds.jsnum -> PDBBounds.jsnum.
Variable parseFloat : string -> PDBBounds.jsnum.

(** For a text with no ATOM or HETATM line the bounds are the loop's
    initial values, min +Infinity and max -Infinity on every axis, and the
    center is the origin. *)
Theorem parsePDB_bounds_empty (content : string)
  (Hnone : forallb (fun l => negb (PDB.is_atom_line l)) (PDB.split_lines content) = true) :
  let bd := PDBBounds.parsePDB_bounds fadd fdiv parseFloat content in
  PDBBounds.bmin bd = {| PDBBounds.cx := PDBBounds.JPosInf; PDBBounds.cy := PDBBounds.JPosInf;
                         PDBBounds.cz := PDBBounds.JPosInf |} /\
  PDBBounds.bmax bd = {| PDBBounds.cx := PDBBounds.JNegInf; PDBBounds.cy := PDBBounds.JNegInf;
                         PDBBounds.cz := PDBBounds.JNegInf |} /\
  PDBBounds.center bd = {| PDBBounds.cx := PDBBounds.JFin 0; PDBBounds.cy := PDBBounds.JFin 0;
                           PDBBounds.cz := PDBBounds.JFin 0 |}.
Proof.
  cbn zeta. unfold PDBBounds.parsePDB_bounds. rewrite (filter_none _ _ Hnone).
  repeat split; reflexivity.
Qed.

Definition stat_min (ax : axis) (s : PDBBounds.stats) : PDBBounds.jsnum :=
  match ax with
  | AxisX => PDBBounds.minX s | AxisY => PDBBounds.minY s | AxisZ => PDBBounds.minZ s
  end.

Definition stat_max (ax : axis) (s : PDBBounds.stats) : PDBBounds.jsnum :=
  match ax with
  | AxisX => PDBBounds.maxX s | AxisY => PDBBounds.maxY s | AxisZ => PDBBounds.maxZ s
  end.

Lemma fold_stat_min (ax : axis) (pts : list PDBBounds.Coordinates) (s : PDBBounds.stats) :
  stat_min ax (fold_left (PDBBounds.stats_step fadd) pts s)
  = fold_left (fun m p => PDBBounds.Math_min m (coord ax p)) pts (stat_min ax s).
Proof.
  revert s. induction pts as [| p pts IH]; intros s; [reflexivity |].
  simpl. rewrite IH. destruct ax; reflexivity.
Qed.

Lemma fold_stat_max (ax : axis) (pts : list PDBBounds.Coordinates) (s : PDBBounds.stats) :
  stat_max ax (fold_left (PDBBounds.stats_step fadd) pts s)
  = fold_left (fun m p => PDBBounds.Math_max m (coord ax p)) pts (stat_max ax s).
Proof.
  revert s. induction pts as [| p pts IH]; intros s; [reflexivity |].
  simpl. rewrite IH. destruct ax; reflexivity.
Qed.

Lemma Qmin_cases (p q : Q) : Qmin p q = p \/ Qmin p q = q.
Proof. unfold Qmin, GenericMinMax.gmin. destruct (p ?= q)%Q; auto. Qed.

Lemma Qmax_cases (p q : Q) : Qmax p q = p \/ Qmax p q = q.
Proof. unfold Qmax, GenericMinMax.gmax. destruct (p ?= q)%Q; auto. Qed.

Lemma fold_min_nan (f : PDBBounds.Coordinates -> PDBBounds.jsnum) (pts : list PDBBounds.Coordinates) :
  forall m, Exists (fun p => f p = PDBBounds.JNaN) pts ->
  fold_left (fun m p => PDBBounds.Math_min m (f p)) pts m = PDBBounds.JNaN.
Proof.
  assert (K : forall l, fold_left (fun m p => PDBBounds.Math_min m (f p)) l PDBBounds.JNaN
                        = PDBBounds.JNaN)
    by (induction l as [| p l IH]; [reflexivity | exact IH]).
  induction pts as [| p pts IH]; intros m H; [inversion H |].
  inversion H as [? ? Hp | ? ? Hr]; subst; cbn [fold_left].
  - rewrite Hp. replace (PDBBounds.Math_min m PDBBounds.JNaN) with PDBBounds.JNaN
      by (destruct m; reflexivity).
    apply K.
  - apply IH, Hr.
Qed.

Lemma fold_max_nan (f : PDBBounds.Coordinates -> PDBBounds.jsnum) (pts : list PDBBounds.Coordinates) :
  forall m, Exists (fun p => f p = PDBBounds.JNaN) pts ->
  fold_left (fun m p => PDBBounds.Math_max m (f p)) pts m = PDBBounds.JNaN.
Proof.
  assert (K : forall l, fold_left (fun m p => PDBBounds.Math_max m (f p)) l PDBBounds.JNaN
                        = PDBBounds.JNaN)
    by (induction l as [| p l IH]; [reflexivity | exact IH]).
  induction pts as [| p pts IH]; intros m H; [inversion H |].
  inversion H as [? ? Hp | ? ? Hr]; subst; cbn [fold_left].
  - rewrite Hp. replace (PDBBounds.Math_max m PDBBounds.JNaN) with PDBBounds.JNaN
      by (destruct m; reflexivity).
    apply K.
  - apply IH, Hr.
Qed.

Lemma fold_min_fin (f : PDBBounds.Coordinates -> PDBBounds.jsnum)
  (pts : list PDBBounds.Coordinates) (lo : Q) :
  (forall p, In p pts -> exists q, f p = PDBBounds.JFin q) ->
  exists v, fold_left (fun m p => PDBBounds.Math_min m (f p)) pts (PDBBounds.JFin lo)
            = PDBBounds.JFin v /\
    (v = lo \/ In (PDBBounds.JFin v) (map f pts)) /\ (v <= lo)%Q /\
    Forall (fun p => exists q, f p = PDBBounds.JFin q /\ (v <= q)%Q) pts.
Proof.
  revert lo. induction pts as [| p pts IH]; intros lo Hfin.
  - exists lo. split; [reflexivity |]. split; [auto |]. split; [apply Qle_refl | constructor].
  - destruct (Hfin p (or_introl eq_refl)) as [q Eq].
    destruct (IH (Qmin lo q)) as [v [E [Hin [Hle Hall]]]];
      [intros p' Hp'; apply Hfin; right; exact Hp' |].
    exists v. cbn [fold_left]. rewrite Eq. split; [exact E |].
    split; [| split; [| constructor; [exists q; split; [exact Eq |] | exact Hall]]].
    + destruct Hin as [-> | Hin]; [| right; right; exact Hin].
      destruct (Qmin_cases lo q) as [-> | ->]; [left | right; left; rewrite Eq]; reflexivity.
    + apply Qle_trans with (1 := Hle), Q.le_min_l.
    + apply Qle_trans with (1 := Hle), Q.le_min_r.
Qed.

Lemma fold_max_fin (f : PDBBounds.Coordinates -> PDBBounds.jsnum)
  (pts : list PDBBounds.Coordinates) (hi : Q) :
  (forall p, In p pts -> exists q, f p = PDBBounds.JFin q) ->
  exists v, fold_left (fun m p => PDBBounds.Math_max m (f p)) pts (PDBBounds.JFin hi)
            = PDBBounds.JFin v /\
    (v = hi \/ In (PDBBounds.JFin v) (map f pts)) /\ (hi <= v)%Q /\
    Forall (fun p => exists q, f p = PDBBounds.JFin q /\ (q <= v)%Q) pts.
Proof.
  revert hi. induction pts as [| p pts IH]; intros hi Hfin.
  - exists hi. split; [reflexivity |]. split; [auto |]. split; [apply Qle_refl | constructor].
  - destruct (Hfin p (or_introl eq_refl)) as [q Eq].
    destruct (IH (Qmax hi q)) as [v [E [Hin [Hle Hall]]]];
      [intros p' Hp'; apply Hfin; right; exact Hp' |].
    exists v. cbn [fold_left]. rewrite Eq. split; [exact E |].
    split; [| split; [| constructor; [exists q; split; [exact Eq |] | exact Hall]]].
    + destruct Hin as [-> | Hin]; [| right; right; exact Hin].
      destruct (Qmax_cases hi q) as [-> | ->]; [left | right; left; rewrite Eq]; reflexivity.
    + apply Qle_trans with (2 := Hle), Q.le_max_l.
    + apply Qle_trans with (2 := Hle), Q.le_max_r.
Qed.

(** When the text has an ATOM or HETATM line, the min and max on an axis
    are NaN as soon as one atom line's coordinate on that axis parses to
    NaN; when every atom line's coordinate on that axis is a finite
    number, they are finite, both are coordinates of atom lines, and every
    atom line's coordinate lies between them. *)
Theorem parsePDB_bounds_enclose (content : string) (ax : axis)
  (Hsome : existsb PDB.is_atom_line (PDB.split_lines content) = true) :
  let pts := map (PDBBounds.line_coords parseFloat)
                 (filter PDB.is_atom_line (PDB.split_lines content)) in
  let bd := PDBBounds.parsePDB_bounds fadd fdiv parseFloat content in
  (Exists (fun p => coord ax p = PDBBounds.JNaN) pts ->
   coord ax (PDBBounds.bmin bd) = PDBBounds.JNaN /\
   coord ax (PDBBounds.bmax bd) = PDBBounds.JNaN) /\
  ((forall p, In p pts -> exists q, coord ax p = PDBBounds.JFin q) ->
   exists lo hi,
     coord ax (PDBBounds.bmin bd) = PDBBounds.JFin lo /\
     coord ax (PDBBounds.bmax bd) = PDBBounds.JFin hi /\
     In (PDBBounds.JFin lo) (map (coord ax) pts) /\
     In (PDBBounds.JFin hi) (map (coord ax) pts) /\
     Forall (fun p => exists q, coord ax p = PDBBounds.JFin q /\ (lo <= q <= hi)%Q) pts).
Proof.
  cbn zeta. unfold PDBBounds.parsePDB_bounds.
  pose proof (filter_some _ _ Hsome) as Hne.
  destruct (filter PDB.is_atom_line (PDB.split_lines content)) as [| l0 rest]; [congruence |].
  clear Hne Hsome. cbn [map]. set (p0 := PDBBounds.line_coords parseFloat l0).
  set (pts := map (PDBBounds.line_coords parseFloat) rest).
  assert (Emin : coord ax (PDBBounds.bmin (PDBBounds.bounds_of fadd fdiv (p0 :: pts)))
                 = stat_min ax (fold_left (PDBBounds.stats_step fadd) (p0 :: pts)
                                          PDBBounds.stats_init))
    by (destruct ax; reflexivity).
  assert (Emax : coord ax (PDBBounds.bmax (PDBBounds.bounds_of fadd fdiv (p0 :: pts)))
                 = stat_max ax (fold_left (PDBBounds.stats_step fadd) (p0 :: pts)
                                          PDBBounds.stats_init))
    by (destruct ax; reflexivity).
  rewrite Emin, Emax, fold_stat_min, fold_stat_max.
  split.
  - intros Hnan. split; [apply fold_min_nan | apply fold_max_nan]; exact Hnan.
  - intros Hfin.
    destruct (Hfin p0 (or_introl eq_refl)) as [q0 E0].
    replace (fold_left (fun m p => PDBBounds.Math_min m (coord ax p)) (p0 :: pts)
               (stat_min ax PDBBounds.stats_init))
      with (fold_left (fun m p => PDBBounds.Math_min m (coord ax p)) pts (PDBBounds.JFin q0))
      by (cbn [fold_left]; rewrite E0; destruct ax; reflexivity).
    replace (fold_left (fun m p => PDBBounds.Math_max m (coord ax p)) (p0 :: pts)
               (stat_max ax PDBBounds.stats_init))
      with (fold_left (fun m p => PDBBounds.Math_max m (coord ax p)) pts (PDBBounds.JFin q0))
      by (cbn [fold_left]; rewrite E0; destruct ax; reflexivity).
    assert (Hfin' : forall p, In p pts -> exists q, coord ax p = PDBBounds.JFin q)
      by (intros p Hp; apply Hfin; right; exact Hp).
    destruct (fold_min_fin (coord ax) pts q0 Hfin') as [lo [El [Hl [Hl0 Hla]]]].
    destruct (fold_max_fin (coord ax) pts q0 Hfin') as [hi [Eh [Hh [Hh0 Hha]]]].
    exists lo, hi. rewrite El, Eh. split; [reflexivity |]. split; [reflexivity |].
    cbn [map]. split; [| split].
    + destruct Hl as [-> | Hl]; [left; exact E0 | right; exact Hl].
    + destruct Hh as [-> | Hh]; [left; exact E0 | right; exact Hh].
    + constructor; [exists q0; split; [exact E0 | split; assumption] |].
      rewrite Forall_forall in Hla, Hha |- *. intros p Hp.
      destruct (Hla p Hp) as [q [Eq Hq]]. destruct (Hha p Hp) as [q' [Eq' Hq']].
      rewrite Eq in Eq'. injection Eq' as <-.
      exists q. split; [exact Eq | split; assumption].
Qed.

End BoundsProofs.

(** ** One dispatch of the update kernel *)
Section DispatchCoverage.
Import AtomUpdate.

Lemma length_store (l : list vec4) (i : nat) (v : vec4) :
  List.length (store l i v) = List.length l.
Proof.
  revert i. induction l as [| w l IH]; intros i; destruct i; simpl; auto.
Qed.

Lemma nth_store (l : list vec4) (i j : nat) (v : vec4) :
  nth j (store l i v) vec4_zero
  = if Nat.eqb j i && Nat.ltb i (List.length l) then v else nth j l vec4_zero.
Proof.
  revert i j. induction l as [| w l IH]; intros i j.
  - destruct (Nat.eqb j i); destruct j; reflexivity.
  - destruct i as [| i], j as [| j]; simpl; try reflexivity.
    rewrite IH. reflexivity.
Qed.

Lemma length_run_invocations (inp out : list vec4) (ids : list N) :
  List.length (Dispatch.run_invocations inp out ids) = List.length out.
Proof.
  revert out. induction ids as [| i ids IH]; intros out; simpl; [reflexivity |].
  rewrite IH. unfold main. destruct (N.of_nat (List.length inp) <=? i)%N;
    [reflexivity | apply length_store].
Qed.

Lemma nth_run_invocations (inp out : list vec4) (ids : list N) (j : nat) :
  List.length out = List.length inp -> (j < List.length out)%nat ->
  nth j (Dispatch.run_invocations inp out ids) vec4_zero
  = if existsb (N.eqb (N.of_nat j)) ids then nth j inp vec4_zero else nth j out vec4_zero.
Proof.
  revert out. induction ids as [| i ids IH]; intros out Hlen Hj; [reflexivity |].
  cbn [Dispatch.run_invocations existsb].
  assert (Hlen' : List.length (snd (main inp out i)) = List.length inp).
  { unfold main. destruct (N.of_nat (List.length inp) <=? i)%N; simpl;
      [exact Hlen | rewrite length_store; exact Hlen]. }
  rewrite IH by lia.
  destruct (existsb (N.eqb (N.of_nat j)) ids) eqn:E; rewrite ?orb_true_r; [reflexivity |].
  rewrite orb_false_r. unfold main.
  destruct (N.eqb_spec (N.of_nat j) i) as [<- | Hne].
  - assert (Hlt : (N.of_nat (List.length inp) <=? N.of_nat j)%N = false)
      by (apply N.leb_gt; lia).
    rewrite Hlt. simpl. rewrite nth_store, Nat2N.id, Nat.eqb_refl.
    replace (Nat.ltb j (List.length out)) with true by (symmetry; apply Nat.ltb_lt; exact Hj).
    reflexivity.
  - destruct (N.of_nat (List.length inp) <=? i)%N; simpl; [reflexivity |].
    rewrite nth_store.
    replace (Nat.eqb j (N.to_nat i)) with false; [reflexivity |].
    symmetry. apply Nat.eqb_neq. intros ->. apply Hne. apply N2Nat.id.
Qed.

Lemma dispatch_ids_cover (n j : nat) :
  (j < n)%nat -> In (N.of_nat j) (Dispatch.dispatch_ids (Z.of_nat n)).
Proof.
  intros Hj. unfold Dispatch.dispatch_ids. apply in_map, in_seq.
  pose proof (Math_ceil_div_bounds (Z.of_nat n)).
  unfold ComputePass.numWorkgroups, ComputePass.workgroupSize. lia.
Qed.

(** One [dispatchWorkgroups(ceil(n / 64))] over the packed positions of n
    atoms and a zeroed output buffer of n vectors leaves the output equal
    to the input, in whatever order the invocations run: every atom is
    covered, and the invocations past the end write nothing. *)
Theorem dispatch_copies_every_atom (fround : Q -> Q) (atoms : list Atom) (ids : list N)
  (Hperm : Permutation ids (Dispatch.dispatch_ids (Z.of_nat (List.length atoms)))) :
  Dispatch.run_invocations (Dispatch.pack fround atoms)
    (repeat vec4_zero (List.length atoms)) ids
  = Dispatch.pack fround atoms.
Proof.
  assert (Hl : List.length (Dispatch.pack fround atoms) = List.length atoms)
    by (unfold Dispatch.pack; apply length_map).
  apply nth_ext with (d := vec4_zero) (d' := vec4_zero).
  - rewrite length_run_invocations, repeat_length. symmetry. exact Hl.
  - intros j Hj. rewrite length_run_invocations, repeat_length in Hj.
    rewrite nth_run_invocations by (rewrite repeat_length; lia).
    replace (existsb (N.eqb (N.of_nat j)) ids) with true; [reflexivity |].
    symmetry. apply existsb_exists. exists (N.of_nat j). split; [| apply N.eqb_refl].
    apply (Permutation_in _ (Permutation_sym Hperm)), dispatch_ids_cover, Hj.
Qed.

End DispatchCoverage.

(** ** Set-up order of GPUAtomRenderer *)
Section RendererOrder.
Import Renderer.

Definition setup_inv (evs : list event) (s : state) : Prop :=
  (gpuContext s = true -> exists a b, evs = a ++ ContextReady :: b) /\
  (outputBufferRef s = true ->
     exists a b c n, n <> 0%nat /\ evs = a ++ ContextReady :: b ++ BuffersEffect n :: c) /\
  (pipelineRef s = true ->
     exists a b c d n, n <> 0%nat /\
       evs = a ++ ContextReady :: b ++ BuffersEffect n :: c ++ PipelineBuilt :: d) /\
  (dispatched s <> 0%nat -> pipelineRef s = true).

Lemma snoc1 (evs a b : list event) (x e : event) :
  evs = a ++ x :: b -> evs ++ [e] = a ++ x :: (b ++ [e]).
Proof. intros ->. rewrite <- app_assoc. reflexivity. Qed.

Lemma snoc2 (evs a b c : list event) (x y e : event) :
  evs = a ++ x :: b ++ y :: c -> evs ++ [e] = a ++ x :: b ++ y :: (c ++ [e]).
Proof. intros ->. rewrite <- app_assoc. cbn [app]. rewrite <- app_assoc. reflexivity. Qed.

Lemma snoc3 (evs a b c d : list event) (x y w e : event) :
  evs = a ++ x :: b ++ y :: c ++ w :: d -> evs ++ [e] = a ++ x :: b ++ y :: c ++ w :: (d ++ [e]).
Proof.
  intros ->. rewrite <- app_assoc. cbn [app]. rewrite <- app_assoc. cbn [app].
  rewrite <- app_assoc. reflexivity.
Qed.

Lemma setup_inv_step (evs : list event) (s : state) (e : event) :
  setup_inv evs s -> setup_inv (evs ++ [e]) (step s e).
Proof.
  intros [H1 [H2 [H3 H4]]].
  assert (K1 : gpuContext s = true -> exists a b, evs ++ [e] = a ++ ContextReady :: b).
  { intros H. destruct (H1 H) as [a [b E]]. exists a, (b ++ [e]). apply snoc1, E. }
  assert (K2 : outputBufferRef s = true -> exists a b c n, n <> 0%nat /\
            evs ++ [e] = a ++ ContextReady :: b ++ BuffersEffect n :: c).
  { intros H. destruct (H2 H) as [a [b [c [n [Hn E]]]]].
    exists a, b, (c ++ [e]), n. split; [exact Hn | apply snoc2, E]. }
  assert (K3 : pipelineRef s = true -> exists a b c d n, n <> 0%nat /\
            evs ++ [e] = a ++ ContextReady :: b ++ BuffersEffect n :: c ++ PipelineBuilt :: d).
  { intros H. destruct (H3 H) as [a [b [c [d [n [Hn E]]]]]].
    exists a, b, c, (d ++ [e]), n. split; [exact Hn | apply snoc3, E]. }
  destruct e as [| n | | |]; cbn [step].
  - repeat split; cbn [gpuContext outputBufferRef pipelineRef dispatched]; auto.
    intros _. exists evs, []. reflexivity.
  - destruct (gpuContext s && negb (Nat.eqb n 0)) eqn:E; [| repeat split; auto].
    apply andb_true_iff in E as [Eg En]. apply negb_true_iff, Nat.eqb_neq in En.
    repeat split; cbn [gpuContext outputBufferRef pipelineRef dispatched]; auto.
    intros _. destruct (H1 Eg) as [a [b Eq]].
    exists a, b, [], n. split; [exact En |]. rewrite Eq, <- app_assoc. reflexivity.
  - destruct (gpuContext s && outputBufferRef s) eqn:E; [| repeat split; auto].
    apply andb_true_iff in E as [Eg Eo].
    repeat split; cbn [gpuContext outputBufferRef pipelineRef dispatched]; auto.
    intros _. destruct (H2 Eo) as [a [b [c [n [Hn Eq]]]]].
    exists a, b, c, [], n. split; [exact Hn |].
    rewrite Eq, <- app_assoc. cbn [app]. rewrite <- app_assoc. reflexivity.
  - destruct (gpuContext s && pipelineRef s && bindGroupRef s) eqn:E; [| repeat split; auto].
    apply andb_true_iff in E as [E Eb]. apply andb_true_iff in E as [Eg Ep].
    unfold updateMesh. destruct (_ && _);
      repeat split; cbn [gpuContext outputBufferRef pipelineRef dispatched]; auto.
  - repeat split; cbn [gpuContext outputBufferRef pipelineRef dispatched]; auto.
Qed.

Lemma setup_inv_run (evs : list event) : setup_inv evs (run init evs).
Proof.
  induction evs as [| e evs IH] using rev_ind.
  - repeat split; cbn; try discriminate. intros H. exfalso. apply H. reflexivity.
  - unfold run. rewrite fold_left_app. cbn [fold_left]. apply setup_inv_step, IH.
Qed.

(** A dispatch only ever happens after a [ContextReady], then a buffer
    set-up for a nonzero atom count, then a built pipeline, in that order
    in the event history. *)
Theorem dispatch_needs_setup (evs : list event)
  (Hd : dispatched (run init evs) <> 0%nat) :
  exists a b c d n, n <> 0%nat /\
    evs = a ++ ContextReady :: b ++ BuffersEffect n :: c ++ PipelineBuilt :: d.
Proof.
  destruct (setup_inv_run evs) as [_ [_ [H3 H4]]]. apply H3, H4, Hd.
Qed.

End RendererOrder.

(** ** The playground's frame index *)
Section PlaygroundFrames.
Import Playground.

Definition keeps_frame (e : event) : bool :=
  match e with DataLoaded _ | FrameChange _ => false | _ => true end.

(** With a loaded trajectory of zero frames, a tick while playing sets the
    frame index to NaN ([x % 0]); no later tick, play/pause or chain
    selection brings it back, and there are no atoms to show. *)
Theorem zero_frames_tick_nan (s : state) (evs : list event)
  (Hzero : totalFrames s = 0) (Hplay : isPlaying s = true)
  (Hevs : forallb keeps_frame evs = true) :
  currentFrame (run (step s Tick) evs) = NaN /\
  View.current_atoms (run (step s Tick) evs) = None.
Proof.
  assert (H0 : currentFrame (step s Tick) = NaN /\ totalFrames (step s Tick) = 0).
  { cbn [step]. rewrite Hplay. cbn [currentFrame with_frame]. unfold advance.
    rewrite Hzero. destruct (currentFrame s); split; reflexivity || exact Hzero. }
  assert (G : forall s0, currentFrame s0 = NaN -> totalFrames s0 = 0 ->
                currentFrame (run s0 evs) = NaN).
  { clear H0 Hplay Hzero s. induction evs as [| e evs IH]; intros s0 Hc Ht; [exact Hc |].
    simpl in Hevs. apply andb_true_iff in Hevs as [He Hevs].
    unfold run. cbn [fold_left]. apply IH; [exact Hevs | |];
      destruct e; try discriminate; cbn [step];
      try (destruct (isPlaying s0)); try exact Hc; try exact Ht;
      cbn [currentFrame with_frame with_selection]; try exact Hc;
      try (unfold advance; rewrite Hc; reflexivity). }
  destruct H0 as [Hc Ht]. pose proof (G _ Hc Ht) as Hn.
  split; [exact Hn |]. unfold View.current_atoms. rewrite Hn. reflexivity.
Qed.

(** From a nonnegative frame index with at least one frame, a tick while
    playing lands on an index in [0, totalFrames), whose frame exists. *)
Theorem tick_lands_in_range (s : state) (p : Z)
  (Hplay : isPlaying s = true) (Hpos : 0 < totalFrames s)
  (Hcur : currentFrame s = Num p) (Hp : 0 <= p) :
  exists q, currentFrame (step s Tick) = Num q /\ 0 <= q < totalFrames s /\
            View.current_atoms (step s Tick) <> None.
Proof.
  cbn [step]. rewrite Hplay. unfold advance. rewrite Hcur. cbn [js_add1 js_rem].
  replace (totalFrames s =? 0) with false by (symmetry; apply Z.eqb_neq; lia).
  exists (Z.rem (p + 1) (totalFrames s)).
  assert (Hr : 0 <= Z.rem (p + 1) (totalFrames s) < totalFrames s).
  { rewrite Z.rem_mod_nonneg by lia. apply Z.mod_pos_bound. lia. }
  split; [reflexivity |]. split; [exact Hr |].
  unfold View.current_atoms. cbn [currentFrame with_frame trajectory].
  replace (Z.rem (p + 1) (totalFrames s) <? 0) with false by (symmetry; apply Z.ltb_ge; lia).
  apply nth_error_Some. unfold totalFrames in *.
  apply Nat2Z.inj_lt. rewrite Z2Nat.id by lia. lia.
Qed.

End PlaygroundFrames.

(** ** BackboneView's chains and styles, MolecularView's panel and count *)
Section ViewProofs.
Import View.

Lemma fold_if_filter {A B} (f : A -> bool) (g : B -> A -> B) (l : list A) (acc : B) :
  fold_left (fun acc a => if f a then g acc a else acc) l acc = fold_left g (filter f l) acc.
Proof.
  revert acc. induction l as [| a l IH]; intros acc; simpl; [reflexivity |].
  destruct (f a); apply IH.
Qed.

Lemma backbone_chains_filter (atoms : list Atom) :
  backbone_chains atoms = chainGroups (filter is_CA atoms).
Proof. unfold backbone_chains, chainGroups. apply fold_if_filter. Qed.

Lemma set_keys {V} (k : string) (v : V) (o : t V) :
  NoDup (map fst o) ->
  NoDup (map fst (set k v o)) /\ (forall k', In k' (map fst (set k v o)) <-> k = k' \/ In k' (map fst o)).
Proof.
  induction o as [| [k0 v0] o IH]; intros Hnd; simpl.
  - split; [repeat constructor; auto | tauto].
  - inversion Hnd as [| ? ? Hk0 Hnd']; subst.
    destruct (String.eqb_spec k k0) as [-> | Hne]; simpl.
    + split; [constructor; assumption | tauto].
    + destruct (IH Hnd') as [IH1 IH2]. split.
      * constructor; [| exact IH1]. rewrite IH2. intros [E | E]; [congruence | auto].
      * intros k'. rewrite IH2. tauto.
Qed.

Lemma fold_group_none (l : list Atom) : fold_left group_atom l None = None.
Proof. induction l as [| a l IH]; [reflexivity | exact IH]. Qed.

Lemma fold_group_keys (l : list Atom) (acc g : t (list Atom)) :
  fold_left group_atom l (Some acc) = Some g -> NoDup (map fst acc) ->
  NoDup (map fst g) /\
  (forall k, In k (map fst g) -> In k (map fst acc) \/ exists a, In a l /\ chain a = k).
Proof.
  revert acc. induction l as [| a l IH]; intros acc Hg Hnd.
  - injection Hg as <-. split; [exact Hnd | auto].
  - cbn [fold_left group_atom] in Hg.
    assert (Hstep : forall v, fold_left group_atom l (Some (set (chain a) v acc)) = Some g ->
              NoDup (map fst g) /\
              (forall k, In k (map fst g) -> In k (map fst acc) \/
                           exists a', In a' (a :: l) /\ chain a' = k)).
    { intros v Hv. destruct (set_keys (chain a) v acc Hnd) as [Hs1 Hs2].
      destruct (IH _ Hv Hs1) as [H1 H2]. split; [exact H1 |].
      intros k Hk. destruct (H2 k Hk) as [Hk' | [a' [Ha' Ea']]].
      - apply Hs2 in Hk' as [<- | Hk']; [right; exists a; simpl; auto | left; exact Hk'].
      - right. exists a'. simpl. auto. }
    destruct (get (chain a) acc); [exact (Hstep _ Hg) | | exact (Hstep _ Hg)].
    rewrite fold_group_none in Hg. discriminate.
Qed.

Lemma backbone_keys (atoms : list Atom) (g : t (list Atom)) :
  backbone_chains atoms = Some g ->
  NoDup (map fst g) /\
  (forall k, In k (map fst g) -> exists a, In a atoms /\ is_CA a = true /\ chain a = k).
Proof.
  rewrite backbone_chains_filter. intros Hg.
  destruct (fold_group_keys _ [] g Hg (NoDup_nil _)) as [H1 H2]. split; [exact H1 |].
  intros k Hk. destruct (H2 k Hk) as [[] | [a [Ha Ea]]].
  apply filter_In in Ha as [Ha Hca]. exists a. auto.
Qed.

Lemma entries_keys {V} (o : t V) : Permutation (map fst (entries o)) (map fst o).
Proof. apply Permutation_map, entries_perm. Qed.

Lemma backbone_view_shape (atoms : list Atom) (sel : option string)
  (v : list (string * chain_style)) :
  backbone_view atoms sel = Some v ->
  exists g, backbone_chains atoms = Some g /\
            v = map (fun p => (fst p, style_of sel (fst p))) (entries g).
Proof.
  unfold backbone_view. destruct (backbone_chains atoms) as [g |]; [| discriminate].
  intros H. injection H as <-. exists g. auto.
Qed.

Lemma isSelected_style (sel : option string) (k : string) :
  isSelected (style_of sel k) = true -> sel = Some k.
Proof.
  destruct sel as [c |]; simpl; [| discriminate].
  intros H. apply String.eqb_eq in H. subst. reflexivity.
Qed.

Lemma selected_at_most_one {A} (sel : option string) (E : list (string * A)) :
  NoDup (map fst E) ->
  (List.length (filter (fun p => isSelected (snd p))
                  (map (fun p => (fst p, style_of sel (fst p))) E)) <= 1)%nat.
Proof.
  induction E as [| q E IH]; intros Hnd; cbn [map filter snd]; [simpl; lia |].
  inversion Hnd as [| ? ? Hq Hnd']; subst.
  destruct (isSelected (style_of sel (fst q))) eqn:Eq; [| apply IH, Hnd'].
  apply isSelected_style in Eq.
  rewrite filter_none; [cbn [List.length]; lia |].
  apply forallb_forall. intros p Hp. apply in_map_iff in Hp as [q' [<- Hq']].
  cbn [snd fst]. destruct (isSelected (style_of sel (fst q'))) eqn:E'; [| reflexivity].
  apply isSelected_style in E'. rewrite Eq in E'. injection E' as E'.
  exfalso. apply Hq. rewrite E'. apply in_map, Hq'.
Qed.

(** BackboneView draws each chain once and highlights at most one: with
    no selection no chain is highlighted or dimmed; with chain [c] selected,
    [c] gets width 5 and full opacity and every other chain is dimmed to
    opacity 0.05 with width 1. *)
Theorem backbone_selection_styles (atoms : list Atom) (sel : option string)
  (v : list (string * chain_style)) (Hv : backbone_view atoms sel = Some v) :
  NoDup (map fst v) /\
  (List.length (filter (fun p => isSelected (snd p)) v) <= 1)%nat /\
  (sel = None -> Forall (fun p => isSelected (snd p) = false /\ isDimmed (snd p) = false /\
                                 lineWidth (snd p) = 1) v) /\
  (forall c, sel = Some c ->
     Forall (fun p => fst p <> c -> isDimmed (snd p) = true /\
                                    line_opacity (snd p) = 5 # 100 /\ lineWidth (snd p) = 1) v) /\
  (forall c, sel = Some c ->
     Forall (fun p => fst p = c -> isSelected (snd p) = true /\
                                   line_opacity (snd p) = 1%Q /\ lineWidth (snd p) = 5) v).
Proof.
  destruct (backbone_view_shape _ _ _ Hv) as [g [Hg ->]].
  destruct (backbone_keys _ _ Hg) as [Hnd _].
  assert (HndE : NoDup (map fst (entries g)))
    by exact (Permutation_NoDup (Permutation_sym (entries_keys g)) Hnd).
  split; [rewrite map_map; exact HndE |].
  split; [exact (selected_at_most_one sel _ HndE) |].
  split; [| split].
  - intros ->. apply Forall_forall. intros p Hp. apply in_map_iff in Hp as [q [<- _]].
    cbn. auto.
  - intros c ->. apply Forall_forall. intros p Hp. apply in_map_iff in Hp as [q [<- _]].
    cbn [fst snd]. intros Hne. apply String.eqb_neq in Hne.
    unfold style_of. rewrite String.eqb_sym, Hne. cbn. auto.
  - intros c ->. apply Forall_forall. intros p Hp. apply in_map_iff in Hp as [q [<- _]].
    cbn [fst snd]. intros ->. unfold style_of. rewrite String.eqb_refl. cbn. auto.
Qed.

(** A selection kept across a load whose first frame has no alpha carbon
    of the selected chain highlights nothing: every chain drawn for the new
    frame is dimmed. *)
Theorem stale_selection_dims_all (s : Playground.state) (d : TrajectoryData) (c : string)
  (atoms : list Atom) (v : list (string * chain_style))
  (Hsel : Playground.selectedChain s = Some c)
  (Hframe : nth_error (frames d) 0 = Some atoms)
  (Hnot : forallb (fun a => negb (is_CA a && String.eqb (chain a) c)) atoms = true)
  (Hv : backbone_view atoms
          (Playground.selectedChain (Playground.step s (Playground.DataLoaded d))) = Some v) :
  current_atoms (Playground.step s (Playground.DataLoaded d)) = Some atoms /\
  Forall (fun p => isSelected (snd p) = false /\ isDimmed (snd p) = true) v.
Proof.
  split; [exact Hframe |].
  cbn [Playground.step Playground.selectedChain] in Hv. rewrite Hsel in Hv.
  destruct (backbone_view_shape _ _ _ Hv) as [g [Hg ->]].
  destruct (backbone_keys _ _ Hg) as [_ Hk].
  apply Forall_forall. intros p Hp. apply in_map_iff in Hp as [q [<- Hq]].
  assert (Hne : String.eqb c (fst q) = false).
  { apply String.eqb_neq. intros E.
    destruct (Hk (fst q)) as [a [Ha [Hca Ec]]].
    { apply (Permutation_in _ (entries_keys g)), in_map, Hq. }
    rewrite forallb_forall in Hnot. specialize (Hnot a Ha).
    rewrite Hca, Ec, E, String.eqb_refl in Hnot. discriminate. }
  cbn [fst snd]. unfold style_of. cbn. rewrite Hne. auto.
Qed.

Lemma trim_blank (s : string) :
  match s with EmptyString => true | String ch _ => PDB.is_space ch end = true ->
  (String.length s <= 1)%nat -> PDB.trim s = "".
Proof.
  intros H Hl. destruct s as [| ch [| ch' s]]; [reflexivity | | simpl in Hl; lia].
  unfold PDB.trim. cbn [PDB.trim_start]. rewrite H. reflexivity.
Qed.

(** An atom line whose chain column (column 22) is blank or missing gives
    the chain id "": selecting that chain highlights it and dims the others,
    but no info panel is shown for it, whatever the chain map holds. *)
Theorem blank_chain_no_panel (parseFloat : string -> Q) (line : string)
  (m : t ChainInfo) (s : Playground.state)
  (Hblank : match PDB.js_substring line 21 22 with
            | EmptyString => true
            | String ch _ => PDB.is_space ch
            end = true) :
  let c := chain (PDB.parse_atom parseFloat line) in
  let s' := Playground.step s (Playground.Select c) in
  c = "" /\
  onSelectInfo m (Playground.selectedChain s') = NoPanel /\
  isSelected (style_of (Playground.selectedChain s') c) = true /\
  (forall k, k <> c -> isDimmed (style_of (Playground.selectedChain s') k) = true).
Proof.
  assert (Hc : chain (PDB.parse_atom parseFloat line) = "").
  { unfold PDB.parse_atom. cbn [chain]. apply trim_blank; [exact Hblank |].
    unfold PDB.js_substring. apply length_substring. }
  cbn zeta. rewrite Hc. cbn [Playground.step Playground.with_selection Playground.selectedChain].
  split; [reflexivity |]. split; [reflexivity |]. split; [reflexivity |].
  intros k Hk. destruct k as [| ch k]; [congruence | reflexivity].
Qed.

(** When no chain id of the frame is an [Object.prototype] member, the
    "Chains" count MolecularView shows is the number of distinct chain ids
    of the frame. *)
Theorem totalChains_distinct (atoms : list Atom) (m : t ChainInfo)
  (Hproto : forallb (fun a => negb (is_prototype_member (chain a))) atoms = true)
  (Hm : chainMetadataMap (Some atoms) = Some m) :
  totalChains m = Z.of_nat (List.length (first_appearance (chain_names atoms))).
Proof.
  rewrite chainMetadataMap_table in Hm by exact Hproto. injection Hm as <-.
  unfold totalChains. f_equal.
  rewrite (Permutation_length (entries_perm _)), length_map,
          (Permutation_length (entries_perm _)).
  rewrite <- (groups_table_keys atoms), length_map. reflexivity.
Qed.

(** When no alpha carbon's chain id is an [Object.prototype] member, the
    groups BackboneView draws, [Object.entries(chains)], are the chain
    groups in [Object.entries] order: chain ids that are array indices
    first, ascending, then the others in order of first appearance; each
    holds that chain's alpha carbons in frame order, other atoms left out.
    When no alpha carbon's chain id is an array index, the order is that
    of first appearance. *)
Theorem backbone_groups_alpha_carbons (atoms : list Atom)
  (Hproto : forallb (fun a => negb (is_prototype_member (chain a)))
                    (filter is_CA atoms) = true) :
  option_map entries (backbone_chains atoms)
  = Some (entries (groups_table (filter is_CA atoms))) /\
  (forallb (fun a => negb (is_array_index (chain a))) (filter is_CA atoms) = true ->
   option_map entries (backbone_chains atoms) = Some (groups_table (filter is_CA atoms))).
Proof.
  rewrite backbone_chains_filter, (chainGroups_table _ Hproto). cbn [option_map].
  split; [reflexivity |]. intros Hidx. f_equal. apply entries_no_index.
  apply forallb_forall. intros [c grp] Hin. cbn [fst].
  apply (in_map fst) in Hin. cbn [fst] in Hin. rewrite groups_table_keys, first_appearance_in in Hin.
  unfold chain_names in Hin. apply in_map_iff in Hin as [a [<- Ha]].
  rewrite forallb_forall in Hidx. exact (Hidx a Ha).
Qed.

End ViewProofs.

(** ** The FPS overlay *)
Section FPSProofs.
Import FPS.

Lemma Math_round_Z (v : Z) : Colors.Math_round (inject_Z v) = v.
Proof.
  unfold Colors.Math_round, inject_Z, Qplus, Qfloor. cbn [Qnum Qden].
  rewrite Z.mul_1_r. change (Z.pos (1 * 2)) with 2.
  rewrite Z.div_add_l by lia. change (1 / 2) with 0. apply Z.add_0_r.
Qed.

Lemma Math_round_mono (p q : Q) : (p <= q)%Q -> Colors.Math_round p <= Colors.Math_round q.
Proof.
  intros H. unfold Colors.Math_round. apply Qfloor_resp_le, Qplus_le_compat; [exact H | apply Qle_refl].
Qed.

Lemma fold_sum (l : list Z) (a : Z) : fold_left Z.add l a = a + fold_right Z.add 0 l.
Proof. revert a. induction l as [| v l IH]; intros a; simpl; [lia |]. rewrite IH. lia. Qed.

Lemma list_min_exists (l : list Z) :
  l <> [] -> exists lo, In lo l /\ Forall (fun v => lo <= v) l.
Proof.
  induction l as [| a l IH]; intros Hne; [congruence |].
  destruct l as [| a' l'].
  - exists a. split; [left; reflexivity | repeat constructor; lia].
  - destruct IH as [lo [Hin Hall]]; [discriminate |].
    destruct (Z.le_gt_cases a lo).
    + exists a. split; [left; reflexivity |]. constructor; [lia |].
      eapply Forall_impl; [| exact Hall]. intros v Hv. simpl in Hv. lia.
    + exists lo. split; [right; exact Hin |]. constructor; [lia | exact Hall].
Qed.

Lemma list_max_exists (l : list Z) :
  l <> [] -> exists hi, In hi l /\ Forall (fun v => v <= hi) l.
Proof.
  induction l as [| a l IH]; intros Hne; [congruence |].
  destruct l as [| a' l'].
  - exists a. split; [left; reflexivity | repeat constructor; lia].
  - destruct IH as [hi [Hin Hall]]; [discriminate |].
    destruct (Z.le_gt_cases hi a).
    + exists a. split; [left; reflexivity |]. constructor; [lia |].
      eapply Forall_impl; [| exact Hall]. intros v Hv. simpl in Hv. lia.
    + exists hi. split; [right; exact Hin |]. constructor; [lia | exact Hall].
Qed.

Lemma sum_ge (lo : Z) (l : list Z) :
  Forall (fun v => lo <= v) l -> lo * Z.of_nat (List.length l) <= fold_right Z.add 0 l.
Proof.
  induction 1 as [| v l Hv _ IH]; cbn [List.length fold_right]; [lia |].
  rewrite Nat2Z.inj_succ, Z.mul_succ_r. lia.
Qed.

Lemma sum_le (hi : Z) (l : list Z) :
  Forall (fun v => v <= hi) l -> fold_right Z.add 0 l <= hi * Z.of_nat (List.length l).
Proof.
  induction 1 as [| v l Hv _ IH]; cbn [List.length fold_right]; [lia |].
  rewrite Nat2Z.inj_succ, Z.mul_succ_r. lia.
Qed.

Definition avg_of (h : list Z) : Z :=
  Colors.Math_round (inject_Z (fold_left Z.add h 0) / inject_Z (Z.of_nat (List.length h))).

Lemma avg_of_between (h : list Z) :
  h <> [] -> Exists (fun v => v <= avg_of h) h /\ Exists (fun v => avg_of h <= v) h.
Proof.
  intros Hne. unfold avg_of. rewrite fold_sum, Z.add_0_l.
  assert (Hn : (0 < inject_Z (Z.of_nat (List.length h)))%Q).
  { rewrite <- (Qfloor_Z 0) at 1. destruct h; [congruence |].
    unfold Qlt, inject_Z. simpl. lia. }
  split.
  - destruct (list_min_exists h Hne) as [lo [Hin Hall]].
    apply Exists_exists. exists lo. split; [exact Hin |].
    rewrite <- (Math_round_Z lo) at 1. apply Math_round_mono.
    apply Qle_shift_div_l; [exact Hn |].
    rewrite <- inject_Z_mult. rewrite <- Zle_Qle. apply sum_ge, Hall.
  - destruct (list_max_exists h Hne) as [hi [Hin Hall]].
    apply Exists_exists. exists hi. split; [exact Hin |].
    rewrite <- (Math_round_Z hi). apply Math_round_mono.
    apply Qle_shift_div_r; [exact Hn |].
    rewrite <- inject_Z_mult. rewrite <- Zle_Qle. apply sum_le, Hall.
Qed.

Definition fps_inv (s : state) : Prop :=
  (List.length (fpsHistory s) <= 10)%nat /\
  (fpsHistory s = [] -> avgFps s = 60) /\
  (fpsHistory s <> [] -> avgFps s = avg_of (fpsHistory s)).

Lemma fps_inv_step (s : state) (t0 : Q) : fps_inv s -> fps_inv (updateFPS s t0).
Proof.
  intros [H1 [H2 H3]]. unfold updateFPS. cbv zeta.
  destruct (Qle_bool 500 (t0 - lastTime s)); [| split; [exact H1 | split; assumption]].
  set (cur := Colors.Math_round _).
  set (pushed := (fpsHistory s ++ [cur])%list).
  assert (Hp : List.length pushed = S (List.length (fpsHistory s)))
    by (unfold pushed; rewrite length_app; simpl; lia).
  set (hist := if (10 <? List.length pushed)%nat then tl pushed else pushed).
  assert (Hh : hist <> [] /\ (List.length hist <= 10)%nat).
  { unfold hist. destruct (10 <? List.length pushed)%nat eqn:E.
    - apply Nat.ltb_lt in E. destruct pushed as [| p0 [| p1 rest]]; simpl in *; split;
        try discriminate; lia.
    - apply Nat.ltb_ge in E. split; [| exact E].
      unfold pushed. destruct (fpsHistory s); discriminate. }
  destruct Hh as [Hne Hle]. cbn [fpsHistory avgFps].
  split; [exact Hle |]. split; [intros E; exfalso; apply Hne; exact E |]. intros _. reflexivity.
Qed.

Lemma fps_inv_run (now : Q) (times : list Q) : fps_inv (run (init now) times).
Proof.
  unfold run. assert (G : forall s, fps_inv s -> fps_inv (fold_left updateFPS times s)).
  { induction times as [| t0 times IH]; intros s Hs; [exact Hs |]. apply IH, fps_inv_step, Hs. }
  apply G. split; [simpl; lia |]. split; [reflexivity | intros H; exfalso; apply H; reflexivity].
Qed.


(** The average FPS shown is 60 until the first reading; after that it
    lies between the smallest and the largest reading of the history. *)
Theorem fps_average_within_history (now : Q) (times : list Q) :
  let s := run (init now) times in
  (fpsHistory s = [] -> avgFps s = 60) /\
  (fpsHistory s <> [] ->
     Exists (fun v => v <= avgFps s) (fpsHistory s) /\
     Exists (fun v => avgFps s <= v) (fpsHistory s)).
Proof.
  cbv zeta. destruct (fps_inv_run now times) as [_ [H2 H3]].
  split; [exact H2 |]. intros Hne. rewrite (H3 Hne). apply avg_of_between, Hne.
Qed.

End FPSProofs.

(** ** Instances of the properties above on concrete inputs *)

Lemma commonResidues_top5_witness :
  let atoms := [sample_atom "A" "ALA" (Some 1); sample_atom "A" "GLY" (Some 2);
                sample_atom "A" "ALA" (Some 3)] in
  forallb (fun a => negb (is_prototype_member (residue a))) atoms = true /\
  exists top,
    commonResidues (calculateChainInfo atoms "A") = Some top /\
    List.length top = Nat.min 5 (List.length (first_appearance (residue_names atoms))) /\
    NoDup top /\
    (forall n, In n top -> In n (residue_names atoms)) /\
    (forall n m, In n top -> In m (residue_names atoms) -> ~ In m top ->
       frequency (residue_names atoms) m <= frequency (residue_names atoms) n).
Proof.
  intros atoms. split; [reflexivity | exact (commonResidues_top5 atoms "A" eq_refl)].
Defined.

Lemma load_non_pdb_text_witness :
  let pf := fun _ : string => 0%Q in
  let s := playground_at (sample_doc 2 1 "A") in
  forallb (fun l => negb (PDB.is_atom_line l)) (PDB.split_lines "HEADER x") = true /\
  (let s' := Playground.on_read pf "x.pdb" s (Playground.Loaded "HEADER x") in
   frames (Playground.trajectory s') = [[]] /\
   num_atoms (metadata (Playground.trajectory s')) = 0 /\
   Playground.currentFrame s' = Playground.Num 0 /\
   Playground.isPlaying s' = true /\
   View.current_atoms s' = Some [] /\
   chainMetadataMap (View.current_atoms s') = Some []).
Proof.
  intros pf s. split; [reflexivity |].
  exact (load_non_pdb_text pf "x.pdb" "HEADER x" s eq_refl).
Defined.

Lemma parsePDB_bounds_empty_witness :
  let fadd := fun _ _ : PDBBounds.jsnum => PDBBounds.JNaN in
  let pf := fun _ : string => PDBBounds.JFin 0 in
  forallb (fun l => negb (PDB.is_atom_line l)) (PDB.split_lines "HEADER x") = true /\
  (let bd := PDBBounds.parsePDB_bounds fadd fadd pf "HEADER x" in
   PDBBounds.bmin bd = {| PDBBounds.cx := PDBBounds.JPosInf; PDBBounds.cy := PDBBounds.JPosInf;
                          PDBBounds.cz := PDBBounds.JPosInf |} /\
   PDBBounds.bmax bd = {| PDBBounds.cx := PDBBounds.JNegInf; PDBBounds.cy := PDBBounds.JNegInf;
                          PDBBounds.cz := PDBBounds.JNegInf |} /\
   PDBBounds.center bd = {| PDBBounds.cx := PDBBounds.JFin 0; PDBBounds.cy := PDBBounds.JFin 0;
                            PDBBounds.cz := PDBBounds.JFin 0 |}).
Proof.
  intros fadd pf.
  split; [reflexivity | exact (parsePDB_bounds_empty fadd fadd pf "HEADER x" eq_refl)].
Defined.

Lemma parsePDB_bounds_enclose_witness :
  let text := "ATOM      1  CA  ALA A   1      11.104   6.134  -6.504  1.00  0.00           C" in
  let fadd := fun _ _ : PDBBounds.jsnum => PDBBounds.JNaN in
  let pf := fun _ : string => PDBBounds.JFin 1 in
  existsb PDB.is_atom_line (PDB.split_lines text) = true /\
  (let pts := map (PDBBounds.line_coords pf) (filter PDB.is_atom_line (PDB.split_lines text)) in
   let bd := PDBBounds.parsePDB_bounds fadd fadd pf text in
   (Exists (fun p => coord AxisX p = PDBBounds.JNaN) pts ->
    coord AxisX (PDBBounds.bmin bd) = PDBBounds.JNaN /\
    coord AxisX (PDBBounds.bmax bd) = PDBBounds.JNaN) /\
   ((forall p, In p pts -> exists q, coord AxisX p = PDBBounds.JFin q) ->
    exists lo hi,
      coord AxisX (PDBBounds.bmin bd) = PDBBounds.JFin lo /\
      coord AxisX (PDBBounds.bmax bd) = PDBBounds.JFin hi /\
      In (PDBBounds.JFin lo) (map (coord AxisX) pts) /\
      In (PDBBounds.JFin hi) (map (coord AxisX) pts) /\
      Forall (fun p => exists q, coord AxisX p = PDBBounds.JFin q /\ (lo <= q <= hi)%Q) pts)).
Proof.
  intros text fadd pf. split; [reflexivity |].
  exact (parsePDB_bounds_enclose fadd fadd pf text AxisX eq_refl).
Defined.

Lemma dispatch_copies_every_atom_witness :
  let atoms := [sample_atom "A" "ALA" None; sample_atom "B" "GLY" None] in
  let ids := rev (Dispatch.dispatch_ids (Z.of_nat (List.length atoms))) in
  Permutation ids (Dispatch.dispatch_ids (Z.of_nat (List.length atoms))) /\
  Dispatch.run_invocations (Dispatch.pack (fun q => q) atoms)
    (repeat AtomUpdate.vec4_zero (List.length atoms)) ids
  = Dispatch.pack (fun q => q) atoms.
Proof.
  intros atoms ids.
  assert (Hp : Permutation ids (Dispatch.dispatch_ids (Z.of_nat (List.length atoms))))
    by (symmetry; apply Permutation_rev).
  split; [exact Hp | exact (dispatch_copies_every_atom (fun q => q) atoms ids Hp)].
Defined.

Lemma dispatch_needs_setup_witness :
  let evs := [Renderer.Frame; Renderer.ContextReady; Renderer.BuffersEffect 3;
              Renderer.PipelineBuilt; Renderer.Frame] in
  Renderer.dispatched (Renderer.run Renderer.init evs) <> 0%nat /\
  exists a b c d n, n <> 0%nat /\
    evs = a ++ Renderer.ContextReady :: b ++ Renderer.BuffersEffect n :: c
            ++ Renderer.PipelineBuilt :: d.
Proof.
  intros evs.
  assert (Hd : Renderer.dispatched (Renderer.run Renderer.init evs) <> 0%nat)
    by (vm_compute; discriminate).
  split; [exact Hd | exact (dispatch_needs_setup evs Hd)].
Defined.

Lemma zero_frames_tick_nan_witness :
  let s := {| Playground.trajectory := sample_doc 0 1 "A";
              Playground.currentFrame := Playground.Num 0;
              Playground.isPlaying := true; Playground.selectedChain := None |} in
  let evs := [Playground.Tick; Playground.Select "A"; Playground.SetPlaying false;
              Playground.SetPlaying true; Playground.Tick] in
  (Playground.totalFrames s = 0 /\ Playground.isPlaying s = true /\
   forallb keeps_frame evs = true) /\
  Playground.currentFrame (Playground.run (Playground.step s Playground.Tick) evs)
    = Playground.NaN /\
  View.current_atoms (Playground.run (Playground.step s Playground.Tick) evs) = None.
Proof.
  intros s evs. split; [repeat split; reflexivity |].
  exact (zero_frames_tick_nan s evs eq_refl eq_refl eq_refl).
Defined.

Lemma tick_lands_in_range_witness :
  let s := {| Playground.trajectory := sample_doc 3 1 "A";
              Playground.currentFrame := Playground.Num 2;
              Playground.isPlaying := true; Playground.selectedChain := None |} in
  (Playground.isPlaying s = true /\ 0 < Playground.totalFrames s /\
   Playground.currentFrame s = Playground.Num 2 /\ 0 <= 2) /\
  exists q, Playground.currentFrame (Playground.step s Playground.Tick) = Playground.Num q /\
            0 <= q < Playground.totalFrames s /\
            View.current_atoms (Playground.step s Playground.Tick) <> None.
Proof.
  intros s.
  assert (Hpos : 0 < Playground.totalFrames s) by (vm_compute; reflexivity).
  assert (Hp : 0 <= 2) by lia.
  split; [exact (conj eq_refl (conj Hpos (conj eq_refl Hp))) |].
  exact (tick_lands_in_range s 2 eq_refl Hpos eq_refl Hp).
Defined.

Lemma backbone_selection_styles_witness :
  let atoms := [sample_atom "A" "ALA" None; sample_atom "B" "GLY" None;
                sample_atom "A" "SER" None] in
  let v := [("A", View.style_of (Some "A") "A"); ("B", View.style_of (Some "A") "B")] in
  View.backbone_view atoms (Some "A") = Some v /\
  NoDup (map fst v) /\
  (List.length (filter (fun p => View.isSelected (snd p)) v) <= 1)%nat /\
  (Some "A" = None -> Forall (fun p => View.isSelected (snd p) = false /\
                                      View.isDimmed (snd p) = false /\
                                      View.lineWidth (snd p) = 1) v) /\
  (forall c, Some "A" = Some c ->
     Forall (fun p => fst p <> c -> View.isDimmed (snd p) = true /\
                                    View.line_opacity (snd p) = 5 # 100 /\
                                    View.lineWidth (snd p) = 1) v) /\
  (forall c, Some "A" = Some c ->
     Forall (fun p => fst p = c -> View.isSelected (snd p) = true /\
                                   View.line_opacity (snd p) = 1%Q /\
                                   View.lineWidth (snd p) = 5) v).
Proof.
  intros atoms v.
  assert (Hv : View.backbone_view atoms (Some "A") = Some v) by (vm_compute; reflexivity).
  split; [exact Hv | exact (backbone_selection_styles atoms (Some "A") v Hv)].
Defined.

Lemma stale_selection_dims_all_witness :
  let s := {| Playground.trajectory := sample_doc 1 1 "A";
              Playground.currentFrame := Playground.Num 0;
              Playground.isPlaying := false; Playground.selectedChain := Some "A" |} in
  let d := sample_doc 1 2 "B" in
  let atoms := repeat (sample_atom "B" "ALA" None) 2 in
  let v := [("B", View.style_of (Some "A") "B")] in
  (Playground.selectedChain s = Some "A" /\
   nth_error (frames d) 0 = Some atoms /\
   forallb (fun a => negb (View.is_CA a && String.eqb (chain a) "A")) atoms = true /\
   View.backbone_view atoms
     (Playground.selectedChain (Playground.step s (Playground.DataLoaded d))) = Some v) /\
  View.current_atoms (Playground.step s (Playground.DataLoaded d)) = Some atoms /\
  Forall (fun p => View.isSelected (snd p) = false /\ View.isDimmed (snd p) = true) v.
Proof.
  intros s d atoms v.
  assert (Hv : View.backbone_view atoms
                 (Playground.selectedChain (Playground.step s (Playground.DataLoaded d)))
               = Some v) by (vm_compute; reflexivity).
  split; [exact (conj eq_refl (conj eq_refl (conj eq_refl Hv))) |].
  exact (stale_selection_dims_all s d "A" atoms v eq_refl eq_refl eq_refl Hv).
Defined.

Lemma blank_chain_no_panel_witness :
  let line := "ATOM      1  N   MET     1      27.340  24.430   2.614  1.00  9.67           N" in
  let pf := fun _ : string => 0%Q in
  let s := playground_at (sample_doc 1 1 "A") in
  match PDB.js_substring line 21 22 with
  | EmptyString => true
  | String ch _ => PDB.is_space ch
  end = true /\
  (let c := chain (PDB.parse_atom pf line) in
   let s' := Playground.step s (Playground.Select c) in
   c = "" /\
   View.onSelectInfo [] (Playground.selectedChain s') = View.NoPanel /\
   View.isSelected (View.style_of (Playground.selectedChain s') c) = true /\
   (forall k, k <> c -> View.isDimmed (View.style_of (Playground.selectedChain s') k) = true)).
Proof.
  intros line pf s. split; [reflexivity |].
  exact (blank_chain_no_panel pf line [] s eq_refl).
Defined.

Lemma totalChains_distinct_witness :
  let atoms := [sample_atom "A" "ALA" None; sample_atom "B" "GLY" None;
                sample_atom "A" "SER" None] in
  let m := [("A", calculateChainInfo [sample_atom "A" "ALA" None; sample_atom "A" "SER" None] "A");
            ("B", calculateChainInfo [sample_atom "B" "GLY" None] "B")] in
  (forallb (fun a => negb (is_prototype_member (chain a))) atoms = true /\
   chainMetadataMap (Some atoms) = Some m) /\
  View.totalChains m = Z.of_nat (List.length (first_appearance (chain_names atoms))).
Proof.
  intros atoms m.
  assert (Hm : chainMetadataMap (Some atoms) = Some m) by (vm_compute; reflexivity).
  split; [split; [reflexivity | exact Hm] |].
  exact (totalChains_distinct atoms m eq_refl Hm).
Defined.

Lemma backbone_groups_alpha_carbons_witness :
  let ca := sample_atom "A" "ALA" None in
  let n := {| x := 1; y := 0; z := 0; element := "N"; name := "N"; residue := "ALA";
              chain := "B"; residue_index := None; color := black |} in
  let atoms := [n; ca; sample_atom "B" "GLY" None; ca] in
  forallb (fun a => negb (is_prototype_member (chain a))) (filter View.is_CA atoms) = true /\
  (option_map entries (View.backbone_chains atoms)
   = Some (entries (groups_table (filter View.is_CA atoms))) /\
   (forallb (fun a => negb (is_array_index (chain a))) (filter View.is_CA atoms) = true ->
    option_map entries (View.backbone_chains atoms) = Some (groups_table (filter View.is_CA atoms)))).
Proof.
  intros ca n atoms. split; [reflexivity | exact (backbone_groups_alpha_carbons atoms eq_refl)].
Defined.

Lemma rgbToHex_saturates_witness :
  let fl := fun q : Q => q in
  let c := {| r := 1; g := 0; b := 1 # 2 |} in
  (forall p q, (p <= q)%Q -> (fl p <= fl q)%Q) /\ (fl 0 == 0)%Q /\ (fl 255 == 255)%Q /\
  (Colors.rgbToHex fl None = "#ffffff"%string /\
   ((1 <= r c)%Q -> substring 1 2 (Colors.rgbToHex fl (Some c)) = "ff"%string) /\
   ((r c <= 0)%Q -> substring 1 2 (Colors.rgbToHex fl (Some c)) = "00"%string) /\
   ((1 <= g c)%Q -> substring 3 2 (Colors.rgbToHex fl (Some c)) = "ff"%string) /\
   ((g c <= 0)%Q -> substring 3 2 (Colors.rgbToHex fl (Some c)) = "00"%string) /\
   ((1 <= b c)%Q -> substring 5 2 (Colors.rgbToHex fl (Some c)) = "ff"%string) /\
   ((b c <= 0)%Q -> substring 5 2 (Colors.rgbToHex fl (Some c)) = "00"%string)).
Proof.
  intros fl c.
  assert (Hm : forall p q, (p <= q)%Q -> (fl p <= fl q)%Q) by (intros p q H; exact H).
  assert (H0 : (fl 0 == 0)%Q) by reflexivity.
  assert (H255 : (fl 255 == 255)%Q) by reflexivity.
  exact (conj Hm (conj H0 (conj H255 (rgbToHex_saturates fl Hm H0 H255 c)))).
Defined.
